(** * pyJianYingDraft, template mode: imported tracks and the timerange engine

    A shallow embedding of [pyJianYingDraft/template_mode.py]:
    the classes [Imported_segment], [Static_track] and [Imported_track],
    with [Imported_track.process_timerange] written in a small state and
    exception monad over the track's segment list, followed by the
    properties of the timeline editing engine and of the JSON pass-through. *)

From stdpp Require Import gmap strings list fin_maps.
From Stdlib Require Import ZArith QArith Qabs Lia Sorted.

Open Scope Z_scope.

(** ** Decoded JSON values

    What [json.load] hands to the constructors.  Python values are immutable
    here, so [deepcopy] is the identity on them; a [dict] is a finite map
    (Python compares dicts regardless of insertion order). *)

#[warnings="-register-all"]
Inductive json : Type :=
  | JNull
  | JBool (b : bool)
  | JInt (z : Z)
  | JFloat (repr : string)
  | JStr (s : string)
  | JList (l : list json)
  | JObj (m : gmap string json).

(** ** The policy enumerations *)

Module Shrink_mode.
Inductive t : Set := cut_head | cut_tail | cut_tail_align | shrink.
End Shrink_mode.

Module Extend_mode.
Inductive t : Set := extend_head | extend_tail | push_tail.
End Extend_mode.

(** An argument annotated with an [Enum] class: a member of it, or (Python
    does not check annotations) some other value, which reaches the [else]
    branch of the comparison chain. *)
Inductive enum_arg (E : Type) : Type :=
  | Member (m : E)
  | Other (repr : string).
Arguments Member {E} m.
Arguments Other {E} repr.

(** ** Exceptions and results *)

Inductive exn : Type :=
  | IndexError
  | KeyError (key : string)
  | TypeError
  | ValueError (what : string)
  (* f"Failed to extend segment to {new_duration} μs, tried modes: {extend}":
     the two interpolated values *)
  | ExtensionFailed (new_duration : Z) (extend : list (enum_arg Extend_mode.t)).

Inductive outcome (A : Type) : Type :=
  | Ok (a : A)
  | Raise (e : exn).
Arguments Ok {A} a.
Arguments Raise {A} e.

#[global] Instance outcome_ret : MRet outcome := fun A a => Ok a.
#[global] Instance outcome_bind : MBind outcome := fun A B f m =>
  match m with
  | Ok a => f a
  | Raise e => Raise e
  end.

Definition is_Ok {A} (o : outcome A) : bool :=
  match o with Ok _ => true | Raise _ => false end.

(** ** Python operations on decoded JSON *)

(** [j[key]] with a string key: only a dict accepts it. *)
Definition subscript (j : json) (key : string) : outcome json :=
  match j with
  | JObj m =>
      match m !! key with
      | Some v => Ok v
      | None => Raise (KeyError key)
      end
  | _ => Raise TypeError
  end.

(** The elements a [for] clause draws from a value: the items of a list,
    the keys of a dict, the characters of a string. *)
Definition py_iter (j : json) : outcome (list json) :=
  match j with
  | JList l => Ok l
  | JObj m => Ok (JStr <$> (map_to_list m).*1)
  | JStr s => Ok ((λ c, JStr (String c EmptyString)) <$> String.list_ascii_of_string s)
  | _ => Raise TypeError
  end.

(** [max(l)] on a list of integers. *)
Definition py_max (l : list Z) : outcome Z :=
  match l with
  | [] => Raise (ValueError "max() arg is an empty sequence")
  | x :: l' => Ok (foldl Z.max x l')
  end.

(** [d.update(other)]: the keys of [other] are set in [d]. *)
Definition dict_update (d : json) (other : gmap string json) : outcome json :=
  match d with
  | JObj m => Ok (JObj (other ∪ m))
  | _ => Raise TypeError
  end.

(** What the module takes from outside [template_mode.py] and the sources
    do not define: the track kinds of [track.py] with [Track_type.from_name],
    and Python's builtin [int] on a decoded value. *)
Class Env : Type := {
  Track_type : Type;
  from_name : json → outcome Track_type;
  py_int : json → outcome Z
}.

(** ** Timerange *)

Module Timerange.

Record t : Set := mk { start : Z; duration : Z }.

(** Modelled from the spec: [time_util.Timerange] is imported by
    [template_mode.py] but is not among the sources; its derived [end]
    is "end = start + duration". *)
Definition end_ (tr : t) : Z := start tr + duration tr.

(** Modelled from the spec: the missing [Timerange.import_json]; a
    timerange descriptor is "an object with start, duration", both
    integers.  Other keys of the object are not consumed. *)
Definition import_json (j : json) : outcome t :=
  match j with
  | JObj m =>
      match m !! "start"%string, m !! "duration"%string with
      | Some (JInt s), Some (JInt d) => Ok (mk s d)
      | Some _, Some _ => Raise TypeError
      | None, _ => Raise (KeyError "start")
      | _, None => Raise (KeyError "duration")
      end
  | _ => Raise TypeError
  end.

(** As in [Jianying_json.Timerange.export_json]:
    [{"start": self.start, "duration": self.duration}]. *)
Definition export_json (tr : t) : json :=
  JObj (<["start"%string := JInt (start tr)]>
        (<["duration"%string := JInt (duration tr)]> ∅)).

End Timerange.

(** ** Imported_segment *)

Module Imported_segment.

Record t : Type := mk {
  raw_data : json;
  material_id : string;
  source_timerange : Timerange.t;
  target_timerange : Timerange.t
}.

(** [start] property and its setter *)
Definition start (self : t) : Z := Timerange.start (target_timerange self).
Definition set_start (value : Z) (self : t) : t :=
  mk (raw_data self) (material_id self) (source_timerange self)
     (Timerange.mk value (Timerange.duration (target_timerange self))).

(** [duration] property and its setter *)
Definition duration (self : t) : Z := Timerange.duration (target_timerange self).
Definition set_duration (value : Z) (self : t) : t :=
  mk (raw_data self) (material_id self) (source_timerange self)
     (Timerange.mk (Timerange.start (target_timerange self)) value).

(** [end] property *)
Definition end_ (self : t) : Z := Timerange.end_ (target_timerange self).

(** Modelled from the spec: [util.assign_attr_with_json] is not among the
    sources.  It fills the typed fields listed in [__DATA_ATTRS] from the
    descriptor: "material_id (string identity), source_timerange /
    target_timerange (each an object with start, duration)". *)
Definition assign_attr_with_json (json_data : json)
    : outcome (string * Timerange.t * Timerange.t) :=
  mid ← subscript json_data "material_id";
  mid ← match mid with JStr s => Ok s | _ => Raise TypeError end;
  src ← subscript json_data "source_timerange" ≫= Timerange.import_json;
  tgt ← subscript json_data "target_timerange" ≫= Timerange.import_json;
  mret (mid, src, tgt).

(** Modelled from the spec: [util.export_attr_to_json] is not among the
    sources.  It yields the typed fields of [__DATA_ATTRS] as a dict, to
    "re-merge typed fields back into the payload at emit time". *)
Definition export_attr_to_json (self : t) : gmap string json :=
  <["material_id"%string := JStr (material_id self)]>
  (<["source_timerange"%string := Timerange.export_json (source_timerange self)]>
  (<["target_timerange"%string := Timerange.export_json (target_timerange self)]> ∅)).

(** [__init__] *)
Definition init (json_data : json) : outcome t :=
  let raw := json_data in
  '(mid, src, tgt) ← assign_attr_with_json json_data;
  mret (mk raw mid src tgt).

Definition export_json (self : t) : outcome json :=
  let json_data := raw_data self in
  dict_update json_data (export_attr_to_json self).

End Imported_segment.

(** ** The state and exception monad of [process_timerange]

    The state is [self.segments].  The segment objects are created once by
    the constructor and never shared, so a reference to one of them is its
    position in the list; assigning through the reference updates the list
    in place.  A raised exception keeps the state reached so far. *)

Abbreviation segment_list := (list Imported_segment.t).

Definition M (A : Type) : Type := segment_list → outcome A * segment_list.

#[global] Instance M_ret : MRet M := fun A a st => (Ok a, st).
#[global] Instance M_bind : MBind M := fun A B f m st =>
  match m st with
  | (Ok a, st') => f a st'
  | (Raise e, st') => (Raise e, st')
  end.

Definition raise {A} (e : exn) : M A := fun st => (Raise e, st).

(** [len(self.segments)] *)
Definition len_segments : M Z := fun st => (Ok (Z.of_nat (length st)), st).

(** Python list subscript: a negative index counts from the end. *)
Definition py_position (n : nat) (i : Z) : option nat :=
  if 0 <=? i then
    (if i <? Z.of_nat n then Some (Z.to_nat i) else None)
  else
    (if - Z.of_nat n <=? i then Some (Z.to_nat (Z.of_nat n + i)) else None).

(** [self.segments[i]]: the referenced segment object, or [IndexError]. *)
Definition getitem (i : Z) : M nat := fun st =>
  match py_position (length st) i with
  | Some r => (Ok r, st)
  | None => (Raise IndexError, st)
  end.

(** Attribute read through a reference. *)
Definition read {A} (r : nat) (f : Imported_segment.t → A) : M A := fun st =>
  match st !! r with
  | Some s => (Ok (f s), st)
  | None => (Raise IndexError, st)
  end.

(** Attribute assignment through a reference. *)
Definition assign (r : nat) (f : Imported_segment.t → Imported_segment.t) : M unit :=
  fun st => (Ok tt, alter f r st).

(** [for i in range(a, b): body(i)] *)
Fixpoint for_each (l : list Z) (body : Z → M unit) : M unit :=
  match l with
  | [] => mret tt
  | i :: l' => body i ≫= fun _ => for_each l' body
  end.

Definition for_range (a b : Z) (body : Z → M unit) : M unit :=
  for_each (seqZ a (b - a)) body.

(** ** Imported_track.process_timerange *)

Module Imported_track.

Import Imported_segment.

(** [int(1e15)] *)
Definition unbounded : Z := 1000000000000000.

(** One pass of the body of [for mode in extend], up to the test of
    [success_flag]; the value is the flag. *)
Definition try_extend (seg : nat) (seg_index delta_duration prev_seg_end next_seg_start : Z)
    (mode : enum_arg Extend_mode.t) : M bool :=
  match mode with
  | Member Extend_mode.extend_head =>
      s ← read seg start;
      if prev_seg_end <=? s - delta_duration then
        s ← read seg start;
        assign seg (set_start (s - delta_duration));;
        mret true
      else mret false
  | Member Extend_mode.extend_tail =>
      e ← read seg end_;
      if e + delta_duration <=? next_seg_start then
        d ← read seg duration;
        assign seg (set_duration (d + delta_duration));;
        mret true
      else mret false
  | Member Extend_mode.push_tail =>
      e ← read seg end_;
      let shift_duration := Z.max 0 (e + delta_duration - next_seg_start) in
      d ← read seg duration;
      assign seg (set_duration (d + delta_duration));;
      (if 0 <? shift_duration then
         n ← len_segments;
         for_range (seg_index + 1) n (fun i =>
           r ← getitem i;
           s ← read r start;
           assign r (set_start (s + shift_duration)))
       else mret tt);;
      mret true
  | Other repr => raise (ValueError repr)
  end.

(** [for mode in extend: ...; if success_flag: break]; the value is the
    final [success_flag]. *)
Fixpoint extend_loop (seg : nat) (seg_index delta_duration prev_seg_end next_seg_start : Z)
    (extend : list (enum_arg Extend_mode.t)) : M bool :=
  match extend with
  | [] => mret false
  | mode :: rest =>
      success_flag ← try_extend seg seg_index delta_duration prev_seg_end next_seg_start mode;
      if success_flag : bool then mret true
      else extend_loop seg seg_index delta_duration prev_seg_end next_seg_start rest
  end.

Definition process_timerange (seg_index new_duration : Z)
    (shrink : enum_arg Shrink_mode.t) (extend : list (enum_arg Extend_mode.t)) : M unit :=
  seg ← getitem seg_index;
  d ← read seg duration;
  let delta_duration := Z.abs (new_duration - d) in
  if new_duration <? d then
    match shrink with
    | Member Shrink_mode.cut_head =>
        s ← read seg start;
        assign seg (set_start (s + delta_duration))
    | Member Shrink_mode.cut_tail =>
        d ← read seg duration;
        assign seg (set_duration (d - delta_duration))
    | Member Shrink_mode.cut_tail_align =>
        d ← read seg duration;
        assign seg (set_duration (d - delta_duration));;
        n ← len_segments;
        for_range (seg_index + 1) n (fun i =>
          r ← getitem i;
          s ← read r start;
          assign r (set_start (s - delta_duration)))
    | Member Shrink_mode.shrink =>
        d ← read seg duration;
        assign seg (set_duration (d - delta_duration));;
        s ← read seg start;
        assign seg (set_start (s + delta_duration `div` 2))
    | Other repr => raise (ValueError repr)
    end
  else if d <? new_duration then
    prev_seg_end ← (if seg_index =? 0 then mret 0
                    else r ← getitem (seg_index - 1); read r end_);
    n ← len_segments;
    next_seg_start ← (if seg_index =? n - 1 then mret unbounded
                      else r ← getitem (seg_index + 1); read r start);
    success_flag ← extend_loop seg seg_index delta_duration prev_seg_end next_seg_start extend;
    if negb success_flag then raise (ExtensionFailed new_duration extend)
    else mret tt
  else mret tt.

Section with_env.
Context `{Env}.

Record t : Type := mk {
  track_type : Track_type;
  name : json;
  track_id : json;
  render_index : Z;
  raw_data : json;
  segments : segment_list
}.

(** [__init__] *)
Definition init (json_data : json) : outcome t :=
  ty ← subscript json_data "type" ≫= from_name;
  nm ← subscript json_data "name";
  id ← subscript json_data "id";
  ri ← (segs ← subscript json_data "segments" ≫= py_iter;
        mapM (λ seg, subscript seg "render_index" ≫= py_int) segs ≫= py_max);
  let raw := json_data in
  segs ← subscript json_data "segments" ≫= py_iter;
  sl ← mapM Imported_segment.init segs;
  mret (mk ty nm id ri raw sl).

(** [__len__] *)
Definition len (self : t) : Z := Z.of_nat (length (segments self)).

(** [self.segments[i]] outside the engine. *)
Definition segments_getitem (self : t) (i : Z) : outcome Imported_segment.t :=
  match py_position (length (segments self)) i ≫= (segments self !!.) with
  | Some s => Ok s
  | None => Raise IndexError
  end.

Definition start_time (self : t) : outcome Z :=
  if len self =? 0 then Ok 0
  else s ← segments_getitem self 0; mret (Timerange.start (target_timerange s)).

Definition end_time (self : t) : outcome Z :=
  if len self =? 0 then Ok 0
  else s ← segments_getitem self (-1); mret (Timerange.end_ (target_timerange s)).

(** [process_timerange] as a method: only [self.segments] is touched,
    also when the call raises. *)
Definition run_process_timerange (self : t) (seg_index new_duration : Z)
    (shrink : enum_arg Shrink_mode.t) (extend : list (enum_arg Extend_mode.t))
    : outcome unit * t :=
  let '(r, sl) := process_timerange seg_index new_duration shrink extend (segments self) in
  (r, mk (track_type self) (name self) (track_id self) (render_index self)
         (raw_data self) sl).

(** [export_json]: updates [self.raw_data] in place and returns it. *)
Definition export_json (self : t) : outcome (json * t) :=
  segs ← mapM Imported_segment.export_json (segments self);
  raw ← dict_update (raw_data self) (<["segments"%string := JList segs]> ∅);
  mret (raw, mk (track_type self) (name self) (track_id self) (render_index self)
                raw (segments self)).

End with_env.

End Imported_track.

(** ** Static_track *)

Module Static_track.

Section with_env.
Context `{Env}.

Record t : Type := mk {
  track_type : Track_type;
  name : json;
  track_id : json;
  render_index : Z;
  raw_data : json
}.

(** [__init__] *)
Definition init (json_data : json) : outcome t :=
  ty ← subscript json_data "type" ≫= from_name;
  nm ← subscript json_data "name";
  id ← subscript json_data "id";
  ri ← (segs ← subscript json_data "segments" ≫= py_iter;
        mapM (λ seg, subscript seg "render_index" ≫= py_int) segs ≫= py_max);
  mret (mk ty nm id ri json_data).

Definition export_json (self : t) : json := raw_data self.

End with_env.

End Static_track.

(** ** The engine's rules in the words of the specification

    Used to state the properties below; the definitions above are the code. *)

Module Rules.

Import Imported_segment.

(** "prev_end = end of segment index-1 (or 0 if index is first)" *)
Definition prev_end (st : segment_list) (r : nat) : Z :=
  match r with
  | O => 0
  | S r' => from_option end_ 0 (st !! r')
  end.

(** "next_start = start of segment index+1 (or an effectively unbounded
    sentinel if index is last)" *)
Definition next_start (st : segment_list) (r : nat) : Z :=
  from_option start Imported_track.unbounded (st !! S r).

(** Column "Succeeds when" of the extend table. *)
Definition succeeds_when (s : Imported_segment.t) (delta pe ns : Z) (m : Extend_mode.t) : bool :=
  match m with
  | Extend_mode.extend_head => pe <=? start s - delta
  | Extend_mode.extend_tail => end_ s + delta <=? ns
  | Extend_mode.push_tail => true
  end.

(** "shift every following segment's start" by [k]. *)
Definition shift_following (r : nat) (k : Z) (st : segment_list) : segment_list :=
  take (S r) st ++ ((λ s, set_start (start s + k) s) <$> drop (S r) st).

(** Column "Effect on success" of the extend table, on the segment [s]
    stored at position [r]. *)
Definition effect_on_success (s : Imported_segment.t) (r : nat) (delta ns : Z)
    (st : segment_list) (m : Extend_mode.t) : segment_list :=
  match m with
  | Extend_mode.extend_head => <[r := set_start (start s - delta) s]> st
  | Extend_mode.extend_tail => <[r := set_duration (duration s + delta) s]> st
  | Extend_mode.push_tail =>
      let st1 := <[r := set_duration (duration s + delta) s]> st in
      if ns <? end_ s + delta then shift_following r (end_ s + delta - ns) st1 else st1
  end.

(** The midpoint of a timerange, in microseconds. *)
Definition midpoint (tr : Timerange.t) : Q :=
  (inject_Z (Timerange.start tr) + inject_Z (Timerange.duration tr) / 2)%Q.

End Rules.

(** ** Predicates on computations of the engine *)

(** The computation never raises [ExtensionFailed]. *)
Definition quiet {A} (m : M A) : Prop :=
  ∀ st d l st', m st ≠ (Raise (ExtensionFailed d l), st').

(** The computation leaves the state as it is. *)
Definition readonly {A} (m : M A) : Prop := ∀ st, (m st).2 = st.

(** The computation relates the initial and the final state by [R]. *)
Definition keeps {A} (R : relation segment_list) (m : M A) : Prop :=
  ∀ st, R st (m st).2.

(** A raised [ExtensionFailed] reports [nd] and [ext] and finds the state
    as it was. *)
Definition atomic {A} (nd : Z) (ext : list (enum_arg Extend_mode.t)) (m : M A) : Prop :=
  ∀ st d l st', m st = (Raise (ExtensionFailed d l), st') → d = nd ∧ l = ext ∧ st' = st.

(** Two segment lists with the same source timeranges, position by position. *)
Definition same_source (st st' : segment_list) : Prop :=
  Imported_segment.source_timerange <$> st' = Imported_segment.source_timerange <$> st.

(** ** The descriptor shape of the specification

    "source_timerange / target_timerange (each an object with start,
    duration, both ... integers)": a value of exactly that shape is what
    [Timerange.export_json] produces. *)

Definition timerange_shaped (j : json) : Prop := ∃ tr, j = Timerange.export_json tr.

Definition segment_shaped (seg : json) : Prop :=
  ∀ v, subscript seg "source_timerange" = Ok v ∨ subscript seg "target_timerange" = Ok v →
       timerange_shaped v.

Definition track_shaped (json_data : json) : Prop :=
  ∀ segs, subscript json_data "segments" = Ok (JList segs) → Forall segment_shaped segs.

(** ** Sample descriptors and tracks *)

Definition segment_descriptor (start duration : Z) : json :=
  JObj (<["material_id"%string := JStr "material-1"]>
       (<["source_timerange"%string := Timerange.export_json (Timerange.mk 0 duration)]>
       (<["target_timerange"%string := Timerange.export_json (Timerange.mk start duration)]>
       (<["render_index"%string := JInt 0]>
       (<["speed"%string := JFloat "1.0"]>
       (<["extra_material_refs"%string := JList [JStr "a"; JNull]]> ∅)))))).

Definition segment_at (start duration : Z) : Imported_segment.t :=
  Imported_segment.mk (segment_descriptor start duration) "material-1"
    (Timerange.mk 0 duration) (Timerange.mk start duration).

Definition track_descriptor (segs : list json) : json :=
  JObj (<["type"%string := JStr "video"]>
       (<["name"%string := JStr "main"]>
       (<["id"%string := JStr "track-1"]>
       (<["flag"%string := JInt 0]>
       (<["segments"%string := JList segs]> ∅))))).

(** A track descriptor with two segment descriptors, and one with none. *)
Definition sample_descriptor : json :=
  track_descriptor [segment_descriptor 0 10; segment_descriptor 10 5].

Definition empty_descriptor : json := track_descriptor [].

(** Three abutting segments. *)
Definition abutting : segment_list :=
  [segment_at 0 10; segment_at 10 10; segment_at 20 10].

(** Three segments with gaps. *)
Definition spaced : segment_list :=
  [segment_at 0 5; segment_at 15 10; segment_at 30 10].

(** The segments of the specification's worked example. *)
Definition worked_example : segment_list :=
  [segment_at 1000 5000; segment_at 6000 2000].

(** A concrete environment: two track kinds, and [int] on integers and
    booleans. *)
Inductive sample_kind : Set := video | audio.

Definition sample_env : Env := {|
  Track_type := sample_kind;
  from_name j :=
    match j with
    | JStr "video" => Ok video
    | JStr "audio" => Ok audio
    | JStr s => Raise (ValueError s)
    | _ => Raise TypeError
    end;
  py_int j :=
    match j with
    | JInt z => Ok z
    | JBool b => Ok (if b then 1 else 0)
    | _ => Raise TypeError
    end
|}.

(** ** Timeline predicates *)

Module Timeline.

Import Imported_segment.

(** No segment reaches past the start of the one stored after it. *)
Definition non_overlapping (st : segment_list) : Prop :=
  ∀ j a b, st !! j = Some a → st !! S j = Some b → end_ a ≤ start b.

(** The fields of a segment that are not its target timerange. *)
Definition payload (s : Imported_segment.t) : json * string * Timerange.t :=
  (raw_data s, material_id s, source_timerange s).

(** Two segment lists that differ at most in target timeranges. *)
Definition same_payload (st st' : segment_list) : Prop :=
  payload <$> st' = payload <$> st.

(** Two segment lists that agree on their first [r] segments and in length. *)
Definition same_prefix (r : nat) (st st' : segment_list) : Prop :=
  length st' = length st ∧ take r st' = take r st.

(** The segment list after an edit that stores [s'] at position [r] and
    moves the start of every later segment by [k]. *)
Definition edited (r : nat) (s' : Imported_segment.t) (k : Z) (j : nat)
    (x : Imported_segment.t) : Imported_segment.t :=
  if decide (j < r)%nat then x
  else if decide (j = r) then s'
  else set_start (start x + k) x.

End Timeline.


(** ** Keys of a segment descriptor *)

(** [__DATA_ATTRS] *)
Definition DATA_ATTRS : list string :=
  ["material_id"; "source_timerange"; "target_timerange"]%string.

(** Two descriptors that agree on every key outside [__DATA_ATTRS]. *)
Definition same_opaque_fields (d d' : json) : Prop :=
  ∀ k, k ∉ DATA_ATTRS → subscript d' k = subscript d k.

(** ** More sample descriptors *)

(** A segment descriptor whose [render_index] is [ri]. *)
Definition layered_descriptor (start duration ri : Z) : json :=
  match segment_descriptor start duration with
  | JObj m => JObj (<["render_index"%string := JInt ri]> m)
  | j => j
  end.

(** A track descriptor whose segments have render indices 3, 7 and 5. *)
Definition mixed_descriptor : json :=
  track_descriptor [layered_descriptor 0 10 3; layered_descriptor 10 5 7;
                    layered_descriptor 20 5 5].

(** * Jianying_json.py: keyframes, animations and video segments

    The objects built here are trees owned by one [Video_segment]; a method
    takes the object and returns the object after the call.  A [float] is
    only carried by this module, never computed with: it is kept as its
    literal.  [uuid.uuid4().hex] is the next element of a sequence of
    identifiers, and the number of identifiers drawn so far is threaded
    through every function that draws one. *)

Definition float : Set := string.

Class Uuid : Type := { uuid4_hex : nat → string }.

(** Exceptions of this module: the builtin ones above, a failed [assert]
    and a missing attribute. *)
Inductive error : Type :=
  | Builtin (e : exn)
  | AssertionError
  | AttributeError.

Inductive result (A : Type) : Type :=
  | Returns (a : A)
  | Raises (e : error).
Arguments Returns {A} a.
Arguments Raises {A} e.

(** [list.sort(key=...)]: Python's sort is stable, so the result is the one
    sorted list in which elements of equal key keep their order; it is
    computed here by insertion from the right. *)
Fixpoint insert_by {A} (key : A → Z) (x : A) (l : list A) : list A :=
  match l with
  | [] => [x]
  | y :: l' => if key x <=? key y then x :: y :: l' else y :: insert_by key x l'
  end.

Definition py_sort_by {A} (key : A → Z) (l : list A) : list A :=
  foldr (insert_by key) [] l.

(** The order of the keys. *)
Definition le_by {A} (key : A → Z) (a b : A) : Prop := key a ≤ key b.

Module Clip_settings.

Record t : Set := mk {
  alpha : float;
  flip_horizontal : bool;
  flip_vertical : bool;
  rotation : float;
  scale_x : float;
  scale_y : float;
  transform_x : float;
  transform_y : float
}.

(** [Clip_settings()] with every keyword at its default. *)
Definition default : t := mk "1.0" false false "0.0" "1.0" "1.0" "0.0" "0.0".

Definition export_json (self : t) : json :=
  JObj (<["alpha"%string := JFloat (alpha self)]>
       (<["flip"%string :=
            JObj (<["horizontal"%string := JBool (flip_horizontal self)]>
                 (<["vertical"%string := JBool (flip_vertical self)]> ∅))]>
       (<["rotation"%string := JFloat (rotation self)]>
       (<["scale"%string :=
            JObj (<["x"%string := JFloat (scale_x self)]>
                 (<["y"%string := JFloat (scale_y self)]> ∅))]>
       (<["transform"%string :=
            JObj (<["x"%string := JFloat (transform_x self)]>
                 (<["y"%string := JFloat (transform_y self)]> ∅))]> ∅))))).

End Clip_settings.

Module Keyframe.

Record t : Set := mk {
  kf_id : string;
  time_offset : Z;
  values : list float
}.

Section with_uuid.
Context `{Uuid}.

(** [__init__]: draws one identifier. *)
Definition init (time_offset : Z) (value : float) (n : nat) : t * nat :=
  (mk (uuid4_hex n) time_offset [value], S n).

End with_uuid.

Definition export_json (self : t) : json :=
  JObj (<["curveType"%string := JStr "Line"]>
       (<["graphID"%string := JStr ""]>
       (<["left_control"%string :=
            JObj (<["x"%string := JFloat "0.0"]> (<["y"%string := JFloat "0.0"]> ∅))]>
       (<["right_control"%string :=
            JObj (<["x"%string := JFloat "0.0"]> (<["y"%string := JFloat "0.0"]> ∅))]>
       (<["id"%string := JStr (kf_id self)]>
       (<["time_offset"%string := JInt (time_offset self)]>
       (<["values"%string := JList (JFloat <$> values self)]> ∅))))))).

End Keyframe.

Module Keyframe_property.

Inductive t : Set :=
  | position_x | position_y | rotation
  | scale_x | scale_y | uniform_scale
  | alpha | saturation | contrast | brightness.

#[global] Instance eq_dec : EqDecision t.
Proof. solve_decision. Defined.

(** The [value] of each member. *)
Definition value (p : t) : string :=
  match p with
  | position_x => "KFTypePositionX"
  | position_y => "KFTypePositionY"
  | rotation => "KFTypeRotation"
  | scale_x => "KFTypeScaleX"
  | scale_y => "KFTypeScaleY"
  | uniform_scale => "UNIFORM_SCALE"
  | alpha => "KFTypeAlpha"
  | saturation => "KFTypeSaturation"
  | contrast => "KFTypeContrast"
  | brightness => "KFTypeBrightness"
  end.

End Keyframe_property.

Module Keyframe_list.

Record t : Set := mk {
  list_id : string;
  keyframe_property : Keyframe_property.t;
  keyframes : list Keyframe.t
}.

Section with_uuid.
Context `{Uuid}.

(** [__init__]: draws one identifier. *)
Definition init (keyframe_property : Keyframe_property.t) (n : nat) : t * nat :=
  (mk (uuid4_hex n) keyframe_property [], S n).

(** [add_keyframe]: append, then sort by [time_offset]. *)
Definition add_keyframe (self : t) (time_offset : Z) (value : float) (n : nat) : t * nat :=
  let '(keyframe, n) := Keyframe.init time_offset value n in
  let keyframes := keyframes self ++ [keyframe] in
  let keyframes := py_sort_by Keyframe.time_offset keyframes in
  (mk (list_id self) (keyframe_property self) keyframes, n).

End with_uuid.

Definition export_json (self : t) : json :=
  JObj (<["id"%string := JStr (list_id self)]>
       (<["keyframe_list"%string := JList (Keyframe.export_json <$> keyframes self)]>
       (<["material_id"%string := JStr ""]>
       (<["property_type"%string := JStr (Keyframe_property.value (keyframe_property self))]>
        ∅)))).

End Keyframe_list.

(** The metadata that is the [value] of a member of [Video_intro_type] or
    [Video_outro_type]; [animation_meta.py] is not among the sources, the
    four attributes are those this module reads. *)
Record Animation_meta : Set := {
  meta_title : string;
  meta_effect_id : string;
  meta_resource_id : string;
  meta_duration : Z
}.

(** [Union[Video_intro_type, Video_outro_type]]: a member of one of the two
    enumerations, given by its metadata. *)
Inductive Video_animation_type : Set :=
  | Video_intro_type (meta : Animation_meta)
  | Video_outro_type (meta : Animation_meta).

Module Animation.

Record t : Set := mk {
  name : string;
  effect_id : string;
  animation_type : string;
  resource_id : string;
  start : Z;
  duration : Z;
  category_id : string;
  category_name : string;
  is_video_animation : bool
}.

(** [__init__]; [start] and [duration] are optional. *)
Definition init (animation_type : Video_animation_type) (start duration : option Z)
    : result t :=
  match animation_type with
  | Video_intro_type type_meta =>
      let start := match start with None => 0 | Some v => v end in
      let duration := match duration with None => meta_duration type_meta | Some v => v end in
      Returns (mk (meta_title type_meta) (meta_effect_id type_meta) "in"
                 (meta_resource_id type_meta) start duration "in" "入场" true)
  | Video_outro_type type_meta =>
      let duration := match duration with None => meta_duration type_meta | Some v => v end in
      match start with
      | None => Raises (Builtin (ValueError "Outro animation must have a start time"))
      | Some start =>
          Returns (mk (meta_title type_meta) (meta_effect_id type_meta) "out"
                     (meta_resource_id type_meta) start duration "out" "出场" true)
      end
  end.

Definition export_json (self : t) : json :=
  JObj (<["anim_adjust_params"%string := JNull]>
       (<["platform"%string := JStr "all"]>
       (<["panel"%string := JStr (if is_video_animation self then "video" else "")]>
       (<["material_type"%string :=
            JStr (if is_video_animation self then "video" else "sticker")]>
       (<["name"%string := JStr (name self)]>
       (<["id"%string := JStr (effect_id self)]>
       (<["type"%string := JStr (animation_type self)]>
       (<["resource_id"%string := JStr (resource_id self)]>
       (<["category_id"%string := JStr (category_id self)]>
       (<["category_name"%string := JStr (category_name self)]>
       (<["start"%string := JInt (start self)]>
       (<["duration"%string := JInt (duration self)]> ∅)))))))))))).

End Animation.

Module Segment_animations.

Record t : Set := mk {
  animation_id : string;
  animation_type : string;
  animations : list Animation.t
}.

Section with_uuid.
Context `{Uuid}.

(** [__init__]: draws one identifier. *)
Definition init (animation_type : string) (n : nat) : t * nat :=
  (mk (uuid4_hex n) animation_type [], S n).

End with_uuid.

(** [add_animation]: refuses a second animation of a type already there. *)
Definition add_animation (self : t) (animation : Animation.t) : result t :=
  if bool_decide (Animation.animation_type animation
                  ∈ (Animation.animation_type <$> animations self))
  then Raises (Builtin (ValueError (Animation.animation_type animation)))
  else Returns (mk (animation_id self) (animation_type self)
                  (animations self ++ [animation])).

Definition export_json (self : t) : json :=
  JObj (<["id"%string := JStr (animation_id self)]>
       (<["type"%string := JStr (animation_type self)]>
       (<["multi_language_current"%string := JStr "none"]>
       (<["animations"%string := JList (Animation.export_json <$> animations self)]> ∅)))).

End Segment_animations.

Module Video_segment.

Record t : Set := mk {
  segment_id : string;
  material_id : string;
  source_timerange : Timerange.t;
  target_timerange : Timerange.t;
  common_keyframes : list Keyframe_list.t;
  extra_material_refs : list string;
  clip_settings : Clip_settings.t;
  uniform_scale : bool;
  animations_instance : option Segment_animations.t
}.

Definition set_common_keyframes (v : list Keyframe_list.t) (self : t) : t :=
  mk (segment_id self) (material_id self) (source_timerange self) (target_timerange self)
     v (extra_material_refs self) (clip_settings self) (uniform_scale self)
     (animations_instance self).

Definition set_extra_material_refs (v : list string) (self : t) : t :=
  mk (segment_id self) (material_id self) (source_timerange self) (target_timerange self)
     (common_keyframes self) v (clip_settings self) (uniform_scale self)
     (animations_instance self).

Definition set_uniform_scale (v : bool) (self : t) : t :=
  mk (segment_id self) (material_id self) (source_timerange self) (target_timerange self)
     (common_keyframes self) (extra_material_refs self) (clip_settings self) v
     (animations_instance self).

Definition set_animations_instance (v : option Segment_animations.t) (self : t) : t :=
  mk (segment_id self) (material_id self) (source_timerange self) (target_timerange self)
     (common_keyframes self) (extra_material_refs self) (clip_settings self)
     (uniform_scale self) v.

(** [attach_animation] *)
Definition attach_animation (self : t) (animation : Segment_animations.t)
    : result unit * t :=
  match animations_instance self with
  | Some _ => (Raises AssertionError, self)
  | None =>
      let self := set_animations_instance (Some animation) self in
      let self := set_extra_material_refs
                    (extra_material_refs self ++ [Segment_animations.animation_id animation])
                    self in
      (Returns tt, self)
  end.

Section with_uuid.
Context `{Uuid}.

(** [__init__]; of [material] only [material.material_id] is read
    ([local_materials.py] is not among the sources). *)
Definition init (material_id : string) (target_timerange : Timerange.t)
    (source_timerange : option Timerange.t) (clip_settings : option Clip_settings.t)
    (n : nat) : t * nat :=
  (mk (uuid4_hex n) material_id
      (match source_timerange with
       | Some tr => tr
       | None => Timerange.mk 0 (Timerange.duration target_timerange)
       end)
      target_timerange [] []
      (match clip_settings with Some c => c | None => Clip_settings.default end)
      true None,
   S n).

(** [add_animation]; an argument that is a member of neither enumeration
    is [Other]. *)
Definition add_animation (self : t) (animation_type : enum_arg Video_animation_type)
    (n : nat) : result unit * t * nat :=
  match animation_type with
  | Other _ => (Raises (Builtin TypeError), self, n)
  | Member ty =>
      let is_intro := match ty with Video_intro_type _ => true | _ => false end in
      let meta := match ty with Video_intro_type m | Video_outro_type m => m end in
      let '(self, n) :=
        match animations_instance self with
        | None =>
            let '(inst, n) := Segment_animations.init "sticker_animation" n in
            let self := set_animations_instance (Some inst) self in
            (set_extra_material_refs
               (extra_material_refs self ++ [Segment_animations.animation_id inst]) self,
             n)
        | Some _ => (self, n)
        end in
      match Animation.init ty
              (Some (if is_intro : bool then 0
                     else Timerange.duration (target_timerange self) - meta_duration meta))
              (Some (meta_duration meta)) with
      | Raises e => (Raises e, self, n)
      | Returns animation =>
          match animations_instance self with
          | None => (Raises AttributeError, self, n)
          | Some inst =>
              match Segment_animations.add_animation inst animation with
              | Raises e => (Raises e, self, n)
              | Returns inst => (Returns tt, set_animations_instance (Some inst) self, n)
              end
          end
      end
  end.

(** The loop of [add_keyframe] over [self.common_keyframes]: the first list
    with the property takes the keyframe; [None] when the loop ends without
    returning. *)
Fixpoint add_to_first (_property : Keyframe_property.t) (time_offset : Z) (value : float)
    (lists : list Keyframe_list.t) (n : nat) : option (list Keyframe_list.t * nat) :=
  match lists with
  | [] => None
  | kf_list :: rest =>
      if decide (Keyframe_list.keyframe_property kf_list = _property) then
        let '(kf_list, n) := Keyframe_list.add_keyframe kf_list time_offset value n in
        Some (kf_list :: rest, n)
      else
        match add_to_first _property time_offset value rest n with
        | Some (rest, n) => Some (kf_list :: rest, n)
        | None => None
        end
  end.

(** The second half of [add_keyframe]: the loop over the keyframe lists
    and, when it ends without returning, the creation of a new list. *)
Definition store_keyframe (self : t) (_property : Keyframe_property.t) (time_offset : Z)
    (value : float) (n : nat) : t * nat :=
  match add_to_first _property time_offset value (common_keyframes self) n with
  | Some (lists, n) => (set_common_keyframes lists self, n)
  | None =>
      let '(kf_list, n) := Keyframe_list.init _property n in
      let '(kf_list, n) := Keyframe_list.add_keyframe kf_list time_offset value n in
      (set_common_keyframes (common_keyframes self ++ [kf_list]) self, n)
  end.

(** The first half of [add_keyframe]: the bookkeeping of [uniform_scale];
    the value is the property the keyframe is stored under. *)
Definition check_scale (self : t) (_property : Keyframe_property.t)
    : result Keyframe_property.t * t :=
  if (bool_decide (_property = Keyframe_property.scale_x)
      || bool_decide (_property = Keyframe_property.scale_y)) && uniform_scale self
  then (Returns _property, set_uniform_scale false self)
  else if bool_decide (_property = Keyframe_property.uniform_scale) then
    if negb (uniform_scale self)
    then (Raises (Builtin (ValueError
            "Cannot set uniform_scale when scale_x or scale_y already exist")), self)
    else (Returns Keyframe_property.scale_x, self)
  else (Returns _property, self).

(** [add_keyframe] *)
Definition add_keyframe (self : t) (_property : Keyframe_property.t) (time_offset : Z)
    (value : float) (n : nat) : result unit * t * nat :=
  match check_scale self _property with
  | (Raises e, self) => (Raises e, self, n)
  | (Returns _property, self) =>
      let '(self, n) := store_keyframe self _property time_offset value n in
      (Returns tt, self, n)
  end.

End with_uuid.

Definition export_json (self : t) : json :=
  JObj (<["caption_info"%string := JNull]>
       (<["cartoon"%string := JBool false]>
       (<["enable_adjust"%string := JBool true]>
       (<["enable_color_correct_adjust"%string := JBool false]>
       (<["enable_color_curves"%string := JBool true]>
       (<["enable_color_match_adjust"%string := JBool false]>
       (<["enable_color_wheels"%string := JBool true]>
       (<["enable_lut"%string := JBool true]>
       (<["enable_smart_color_adjust"%string := JBool false]>
       (<["group_id"%string := JStr ""]>
       (<["hdr_settings"%string :=
            JObj (<["intensity"%string := JFloat "1.0"]>
                 (<["mode"%string := JInt 1]>
                 (<["nits"%string := JInt 1000]> ∅)))]>
       (<["intensifies_audio"%string := JBool false]>
       (<["is_placeholder"%string := JBool false]>
       (<["is_tone_modify"%string := JBool false]>
       (<["last_nonzero_volume"%string := JFloat "1.0"]>
       (<["render_index"%string := JInt 0]>
       (<["responsive_layout"%string :=
            JObj (<["enable"%string := JBool false]>
                 (<["horizontal_pos_layout"%string := JInt 0]>
                 (<["size_layout"%string := JInt 0]>
                 (<["vertical_pos_layout"%string := JInt 0]>
                 (<["target_follow"%string := JStr ""]> ∅)))))]>
       (<["reverse"%string := JBool false]>
       (<["speed"%string := JFloat "1.0"]>
       (<["template_id"%string := JStr ""]>
       (<["template_scene"%string := JStr "default"]>
       (<["track_attribute"%string := JInt 0]>
       (<["track_render_index"%string := JInt 0]>
       (<["visible"%string := JBool true]>
       (<["volume"%string := JFloat "1.0"]>
       (<["id"%string := JStr (segment_id self)]>
       (<["material_id"%string := JStr (material_id self)]>
       (<["common_keyframes"%string :=
            JList (Keyframe_list.export_json <$> common_keyframes self)]>
       (<["extra_material_refs"%string := JList (JStr <$> extra_material_refs self)]>
       (<["keyframe_refs"%string := JList []]>
       (<["source_timerange"%string := Timerange.export_json (source_timerange self)]>
       (<["target_timerange"%string := Timerange.export_json (target_timerange self)]>
       (<["clip"%string := Clip_settings.export_json (clip_settings self)]>
       (<["uniform_scale"%string :=
            JObj (<["on"%string := JBool (uniform_scale self)]>
                 (<["value"%string := JFloat "1.0"]> ∅))]>
        ∅)))))))))))))))))))))))))))))))))).

End Video_segment.

(** ** Well-formedness of the keyframes and animations of a segment *)

Definition by_time_offset : relation Keyframe.t := le_by Keyframe.time_offset.

(** The keyframe lists of a segment control pairwise different properties,
    none of them [uniform_scale], and each is sorted by time offset. *)
Definition keyframes_wf (self : Video_segment.t) : Prop :=
  NoDup (Keyframe_list.keyframe_property <$> Video_segment.common_keyframes self)
  ∧ (Keyframe_property.uniform_scale
     ∉ (Keyframe_list.keyframe_property <$> Video_segment.common_keyframes self))
  ∧ Forall (λ kl, StronglySorted by_time_offset (Keyframe_list.keyframes kl))
      (Video_segment.common_keyframes self).

(** All keyframes of a segment. *)
Definition all_keyframes (self : Video_segment.t) : list Keyframe.t :=
  Video_segment.common_keyframes self ≫= Keyframe_list.keyframes.

(** The animations attached to a segment are linked in
    [extra_material_refs], and are at most one intro and one outro. *)
Definition animations_wf (self : Video_segment.t) : Prop :=
  match Video_segment.animations_instance self with
  | None => True
  | Some inst =>
      (Segment_animations.animation_id inst ∈ Video_segment.extra_material_refs self)
      ∧ NoDup (Animation.animation_type <$> Segment_animations.animations inst)
      ∧ Forall (λ a, Animation.animation_type a = "in"%string
                     ∨ Animation.animation_type a = "out"%string)
          (Segment_animations.animations inst)
  end.

(** A sample identifier sequence. *)
Definition sample_uuid : Uuid :=
  {| uuid4_hex n := String.string_of_list_ascii (replicate (S n) (Ascii.ascii_of_nat 97)) |}.

(** A fresh video segment on [{start:0, duration:5000000}], and the same
    with a keyframe on [scale_x]. *)
Definition sample_segment : Video_segment.t :=
  (@Video_segment.init sample_uuid "material-1" (Timerange.mk 0 5000000) None None 0).1.

Definition scaled_segment : Video_segment.t :=
  (@Video_segment.add_keyframe sample_uuid sample_segment Keyframe_property.scale_x
     0 "1.5" 1).1.2.

(** A sample outro animation. *)
Definition sample_outro : Video_animation_type :=
  Video_outro_type {| meta_title := "fade-out"; meta_effect_id := "e2";
                      meta_resource_id := "r2"; meta_duration := 700000 |}.

(** * Properties of the engine *)

(** ** Running the monad *)

Section monad_facts.

Lemma bind_run {A B} (m : M A) (f : A → M B) st :
  (m ≫= f) st = match m st with (Ok a, st') => f a st' | (Raise e, st') => (Raise e, st') end.
Proof. reflexivity. Qed.

Lemma bind_Ok {A B} (m : M A) (f : A → M B) st a st1 :
  m st = (Ok a, st1) → (m ≫= f) st = f a st1.
Proof. intros E. rewrite bind_run. by rewrite E. Qed.

Lemma py_position_valid n i :
  0 ≤ i < Z.of_nat n → py_position n i = Some (Z.to_nat i).
Proof.
  intros [H0 H1]. unfold py_position.
  destruct (Z.leb_spec 0 i); [|lia]. destruct (Z.ltb_spec i (Z.of_nat n)); [done|lia].
Qed.

Lemma getitem_valid i st :
  0 ≤ i < Z.of_nat (length st) → getitem i st = (Ok (Z.to_nat i), st).
Proof. intros Hi. unfold getitem. by rewrite py_position_valid. Qed.

Lemma read_Some {A} r (f : Imported_segment.t → A) st s :
  st !! r = Some s → read r f st = (Ok (f s), st).
Proof. intros E. unfold read. by rewrite E. Qed.

Lemma bind_getitem {B} i (f : nat → M B) st :
  0 ≤ i < Z.of_nat (length st) → (getitem i ≫= f) st = f (Z.to_nat i) st.
Proof. intros Hi. apply bind_Ok. by apply getitem_valid. Qed.

Lemma bind_read {A B} r (g : Imported_segment.t → A) (f : A → M B) st s :
  st !! r = Some s → (read r g ≫= f) st = f (g s) st.
Proof. intros E. apply bind_Ok. by apply read_Some. Qed.

Lemma bind_assign {B} r g (f : unit → M B) st :
  (assign r g ≫= f) st = f tt (alter g r st).
Proof. reflexivity. Qed.

Lemma bind_len {B} (f : Z → M B) st :
  (len_segments ≫= f) st = f (Z.of_nat (length st)) st.
Proof. reflexivity. Qed.

Lemma bind_ret {A B} (a : A) (f : A → M B) st : (mret a ≫= f) st = f a st.
Proof. reflexivity. Qed.

Lemma alter_insert {A} (f : A → A) (l : list A) r x :
  l !! r = Some x → alter f r l = <[r := f x]> l.
Proof.
  intros E. apply list_eq. intros j. destruct (decide (r = j)) as [->|Hne].
  - rewrite list_lookup_alter_eq, E. simpl.
    symmetry. apply list_lookup_insert_eq. by eapply lookup_lt_Some.
  - by rewrite list_lookup_alter_ne, list_lookup_insert_ne.
Qed.

End monad_facts.

Import Imported_segment Imported_track.

Lemma for_each_shift (f : Imported_segment.t → Z) g n : ∀ a st,
  0 ≤ a → a + Z.of_nat n = Z.of_nat (length st) →
  for_each (seqZ a (Z.of_nat n))
    (λ i, r ← getitem i; s ← read r f; assign r (g s)) st
  = (Ok tt, take (Z.to_nat a) st ++ ((λ s, g (f s) s) <$> drop (Z.to_nat a) st)).
Proof.
  induction n as [|n IH]; intros a st Ha Hlen.
  - simpl. unfold mret, M_ret. f_equal.
    rewrite drop_ge; [|lia]. rewrite take_ge; [|lia]. by rewrite app_nil_r.
  - rewrite seqZ_cons; [|lia].
    replace (Z.pred (Z.of_nat (S n))) with (Z.of_nat n) by lia.
    simpl. 
    assert (Hlt : (Z.to_nat a < length st)%nat) by lia.
    destruct (lookup_lt_is_Some_2 st _ Hlt) as [s Hs].
    rewrite (bind_Ok _ _ st tt (alter (g (f s)) (Z.to_nat a) st)).
    2:{ rewrite (bind_Ok _ _ _ _ _ (getitem_valid a st ltac:(lia))).
        rewrite (bind_Ok _ _ _ _ _ (read_Some _ _ _ _ Hs)). reflexivity. }
    rewrite IH; [|lia|rewrite length_alter; lia].
    f_equal. replace (Z.to_nat (Z.succ a)) with (S (Z.to_nat a)) by lia.
    rewrite drop_alter_lt; [|lia].
    rewrite (take_S_r _ _ (g (f s) s)).
    2:{ rewrite list_lookup_alter_eq. by rewrite Hs. }
    rewrite take_alter_ge; [|lia].
    rewrite (drop_S st s (Z.to_nat a)); [|done].
    by rewrite <- app_assoc.
Qed.

Lemma for_range_shift (f : Imported_segment.t → Z) g a st :
  0 ≤ a ≤ Z.of_nat (length st) →
  for_range a (Z.of_nat (length st))
    (λ i, r ← getitem i; s ← read r f; assign r (g s)) st
  = (Ok tt, take (Z.to_nat a) st ++ ((λ s, g (f s) s) <$> drop (Z.to_nat a) st)).
Proof.
  intros Ha. unfold for_range.
  replace (Z.of_nat (length st) - a) with (Z.of_nat (Z.to_nat (Z.of_nat (length st) - a))) by lia.
  apply for_each_shift; lia.
Qed.

Section shrink_regime.

Variables (st : segment_list) (seg_index new_duration : Z) (s : Imported_segment.t).
Variable extend : list (enum_arg Extend_mode.t).
Hypothesis Hvalid : 0 ≤ seg_index < Z.of_nat (length st).
Hypothesis Hseg : st !! Z.to_nat seg_index = Some s.
Hypothesis Hshorter : new_duration < duration s.

Let r := Z.to_nat seg_index.
Let delta := duration s - new_duration.

Lemma shrink_delta : Z.abs (new_duration - duration s) = delta.
Proof. unfold delta. lia. Qed.

Ltac enter_shrink :=
  unfold process_timerange;
  rewrite bind_getitem by done; rewrite (bind_read _ _ _ _ _ Hseg);
  rewrite shrink_delta; fold r;
  destruct (Z.ltb_spec new_duration (duration s)); [|lia].

Lemma run_cut_head :
  process_timerange seg_index new_duration (Member Shrink_mode.cut_head) extend st
  = (Ok tt, <[r := set_start (start s + delta) s]> st).
Proof.
  enter_shrink. rewrite (bind_read _ _ _ _ _ Hseg).
  unfold assign. by rewrite (alter_insert _ _ _ _ Hseg).
Qed.

Lemma run_cut_tail :
  process_timerange seg_index new_duration (Member Shrink_mode.cut_tail) extend st
  = (Ok tt, <[r := set_duration new_duration s]> st).
Proof.
  enter_shrink. rewrite (bind_read _ _ _ _ _ Hseg).
  unfold assign. rewrite (alter_insert _ _ _ _ Hseg).
  by replace (duration s - delta) with new_duration by (unfold delta; lia).
Qed.

Lemma run_shrink :
  process_timerange seg_index new_duration (Member Shrink_mode.shrink) extend st
  = (Ok tt, <[r := set_start (start s + delta `div` 2) (set_duration new_duration s)]> st).
Proof.
  enter_shrink. rewrite (bind_read _ _ _ _ _ Hseg).
  rewrite bind_assign.
  rewrite (alter_insert _ _ _ _ Hseg).
  assert (Hlt : (r < length st)%nat) by (by eapply lookup_lt_Some).
  rewrite (bind_read _ _ _ _ (set_duration (duration s - delta) s))
    by (by apply list_lookup_insert_eq).
  unfold assign.
  rewrite (alter_insert _ _ r (set_duration (duration s - delta) s)) by (by apply list_lookup_insert_eq).
  rewrite list_insert_insert_eq.
  by replace (duration s - delta) with new_duration by (unfold delta; lia).
Qed.

Lemma run_cut_tail_align :
  process_timerange seg_index new_duration (Member Shrink_mode.cut_tail_align) extend st
  = (Ok tt, Rules.shift_following r (- delta) (<[r := set_duration new_duration s]> st)).
Proof.
  enter_shrink. rewrite (bind_read _ _ _ _ _ Hseg).
  rewrite bind_assign, bind_len.
  rewrite (alter_insert _ _ _ _ Hseg).
  assert (Hlt : (r < length st)%nat) by (by eapply lookup_lt_Some).
  replace (duration s - delta) with new_duration by (unfold delta; lia).
  rewrite for_range_shift by (rewrite length_insert; lia).
  unfold Rules.shift_following. f_equal.
  replace (Z.to_nat (seg_index + 1)) with (S r) by (unfold r; lia).
  reflexivity.
Qed.

End shrink_regime.

Section extend_regime.

Variables (st : segment_list) (seg_index new_duration : Z) (s : Imported_segment.t).
Hypothesis Hvalid : 0 ≤ seg_index < Z.of_nat (length st).
Hypothesis Hseg : st !! Z.to_nat seg_index = Some s.

Let r := Z.to_nat seg_index.
Let pe := Rules.prev_end st r.
Let ns := Rules.next_start st r.

Lemma run_prev_seg_end :
  (if seg_index =? 0 then mret 0
   else r ← getitem (seg_index - 1); read r end_) st = (Ok pe, st).
Proof.
  unfold pe. destruct (Z.eqb_spec seg_index 0) as [Heq|Hne].
  - unfold r. by rewrite Heq.
  - rewrite bind_getitem by lia.
    replace r with (S (Z.to_nat (seg_index - 1))) by (unfold r; lia).
    cbn [Rules.prev_end].
    destruct (lookup_lt_is_Some_2 st (Z.to_nat (seg_index - 1)) ltac:(lia)) as [p Hp].
    rewrite Hp. simpl. by apply read_Some.
Qed.

Lemma run_next_seg_start :
  (if seg_index =? Z.of_nat (length st) - 1 then mret unbounded
   else r ← getitem (seg_index + 1); read r start) st = (Ok ns, st).
Proof.
  unfold ns, Rules.next_start.
  destruct (Z.eqb_spec seg_index (Z.of_nat (length st) - 1)) as [Heq|Hne].
  - rewrite lookup_ge_None_2 by (unfold r; lia). reflexivity.
  - rewrite bind_getitem by lia.
    replace (Z.to_nat (seg_index + 1)) with (S r) by (unfold r; lia).
    destruct (lookup_lt_is_Some_2 st (S r) ltac:(unfold r; lia)) as [q Hq].
    rewrite Hq. simpl. by apply read_Some.
Qed.

Lemma run_try_extend delta pe' ns' m :
  try_extend r seg_index delta pe' ns' (Member m) st
  = if Rules.succeeds_when s delta pe' ns' m
    then (Ok true, Rules.effect_on_success s r delta ns' st m)
    else (Ok false, st).
Proof.
  assert (Hlt : (r < length st)%nat) by (by eapply lookup_lt_Some).
  destruct m; simpl.
  - rewrite (bind_read _ _ _ _ _ Hseg).
    destruct (pe' <=? start s - delta); [|done].
    rewrite (bind_read _ _ _ _ _ Hseg), bind_assign.
    by rewrite (alter_insert _ _ _ _ Hseg).
  - rewrite (bind_read _ _ _ _ _ Hseg).
    destruct (end_ s + delta <=? ns'); [|done].
    rewrite (bind_read _ _ _ _ _ Hseg), bind_assign.
    by rewrite (alter_insert _ _ _ _ Hseg).
  - rewrite (bind_read _ _ _ _ _ Hseg), (bind_read _ _ _ _ _ Hseg), bind_assign.
    rewrite (alter_insert _ _ _ _ Hseg).
    destruct (Z.ltb_spec ns' (end_ s + delta)) as [Hlt'|Hge].
    + destruct (Z.ltb_spec 0 (Z.max 0 (end_ s + delta - ns'))); [|lia].
      rewrite bind_run, bind_len, for_range_shift by (rewrite length_insert; lia).
      simpl. unfold mret, M_ret, Rules.shift_following. 
      replace (Z.to_nat (seg_index + 1)) with (S r) by (unfold r; lia).
      by replace (Z.max 0 (end_ s + delta - ns')) with (end_ s + delta - ns') by lia.
    + destruct (Z.ltb_spec 0 (Z.max 0 (end_ s + delta - ns'))); [lia|].
      reflexivity.
Qed.

Lemma run_extend_loop delta pe' ns' (modes : list Extend_mode.t) :
  extend_loop r seg_index delta pe' ns' (Member <$> modes) st
  = match find (Rules.succeeds_when s delta pe' ns') modes with
    | Some m => (Ok true, Rules.effect_on_success s r delta ns' st m)
    | None => (Ok false, st)
    end.
Proof.
  induction modes as [|m modes IH]; [done|].
  cbn [fmap list_fmap extend_loop find]. rewrite bind_run, run_try_extend.
  by destruct (Rules.succeeds_when s delta pe' ns' m).
Qed.

Hypothesis Hlonger : duration s < new_duration.

Lemma run_extend shrink extend :
  process_timerange seg_index new_duration shrink extend st
  = match extend_loop r seg_index (new_duration - duration s) pe ns extend st with
    | (Ok true, st') => (Ok tt, st')
    | (Ok false, st') => (Raise (ExtensionFailed new_duration extend), st')
    | (Raise e, st') => (Raise e, st')
    end.
Proof.
  unfold process_timerange.
  rewrite bind_getitem by done. rewrite (bind_read _ _ _ _ _ Hseg).
  replace (Z.abs (new_duration - duration s)) with (new_duration - duration s) by lia.
  destruct (Z.ltb_spec new_duration (duration s)); [lia|].
  destruct (Z.ltb_spec (duration s) new_duration); [|lia].
  rewrite (bind_Ok _ _ _ _ _ run_prev_seg_end), bind_len.
  rewrite (bind_Ok _ _ _ _ _ run_next_seg_start), bind_run.
  fold r. destruct (extend_loop _ _ _ _ _ _ _) as [[[]|e] st']; reflexivity.
Qed.

End extend_regime.

(** ** What a call can and cannot do to the state *)

Lemma quiet_bind {A B} (m : M A) (f : A → M B) :
  quiet m → (∀ a, quiet (f a)) → quiet (m ≫= f).
Proof.
  intros Hm Hf st d l st'. rewrite bind_run.
  destruct (m st) as [[a|e] st1] eqn:E.
  - apply Hf.
  - intros [= He Hs]. subst. by apply (Hm _ _ _ _ E).
Qed.

Lemma quiet_ret {A} (a : A) : quiet (mret a).
Proof. by intros st d l st'. Qed.

Lemma quiet_raise {A} e : (∀ d l, e ≠ ExtensionFailed d l) → quiet (@raise A e).
Proof. intros He st d l st' [= -> ->]. by apply (He d l). Qed.

Lemma quiet_getitem i : quiet (getitem i).
Proof. intros st d l st'. unfold getitem. by destruct (py_position _ _). Qed.

Lemma quiet_read {A} r (f : Imported_segment.t → A) : quiet (read r f).
Proof. intros st d l st'. unfold read. by destruct (st !! r). Qed.

Lemma quiet_assign r f : quiet (assign r f).
Proof. by intros st d l st'. Qed.

Lemma quiet_len : quiet len_segments.
Proof. by intros st d l st'. Qed.

Lemma quiet_for_each l body : (∀ i, quiet (body i)) → quiet (for_each l body).
Proof.
  intros Hb. induction l as [|i l IH]; [apply quiet_ret|].
  simpl. apply quiet_bind; auto.
Qed.

Lemma readonly_bind {A B} (m : M A) (f : A → M B) :
  readonly m → (∀ a, readonly (f a)) → readonly (m ≫= f).
Proof.
  intros Hm Hf st. rewrite bind_run. specialize (Hm st).
  destruct (m st) as [[a|e] st1]; simpl in *; subst; [apply Hf|done].
Qed.

Lemma readonly_getitem i : readonly (getitem i).
Proof. intros st. unfold getitem. by destruct (py_position _ _). Qed.

Lemma readonly_read {A} r (f : Imported_segment.t → A) : readonly (read r f).
Proof. intros st. unfold read. by destruct (st !! r). Qed.

Lemma keeps_bind {A B} R `{!PreOrder R} (m : M A) (f : A → M B) :
  keeps R m → (∀ a, keeps R (f a)) → keeps R (m ≫= f).
Proof.
  intros Hm Hf st. rewrite bind_run. specialize (Hm st).
  destruct (m st) as [[a|e] st1]; simpl in *; [|done].
  etrans; [done|apply Hf].
Qed.

Lemma keeps_readonly {A} R `{!PreOrder R} (m : M A) : readonly m → keeps R m.
Proof. intros Hm st. by rewrite Hm. Qed.

Lemma keeps_for_each R `{!PreOrder R} l body :
  (∀ i, keeps R (body i)) → keeps R (for_each l body).
Proof.
  intros Hb. induction l as [|i l IH]; [by intros st|].
  simpl. apply keeps_bind; auto.
Qed.

Create HintDb engine.
#[local] Hint Resolve quiet_ret quiet_getitem quiet_read quiet_assign quiet_len
  readonly_getitem readonly_read : engine.

Ltac quiet_step :=
  lazymatch goal with
  | |- quiet (_ ≫= _) => apply quiet_bind; [|intros ?]
  | |- quiet (if ?c then _ else _) => destruct c
  | |- quiet (for_range _ _ _) => apply quiet_for_each; intros ?
  | |- quiet (raise _) => by apply quiet_raise
  | |- _ => solve [auto with engine]
  end.

Lemma quiet_try_extend seg i delta pe ns mode :
  quiet (try_extend seg i delta pe ns mode).
Proof. destruct mode as [[]|repr]; simpl; repeat quiet_step. Qed.

Lemma quiet_extend_loop seg i delta pe ns extend :
  quiet (extend_loop seg i delta pe ns extend).
Proof.
  induction extend as [|mode rest IH]; simpl; [auto with engine|].
  apply quiet_bind; [apply quiet_try_extend|].
  intros []; auto with engine.
Qed.

(** A pass of the loop body that leaves [success_flag] false has assigned
    nothing. *)
Lemma try_extend_false seg i delta pe ns mode st st' :
  try_extend seg i delta pe ns mode st = (Ok false, st') → st' = st.
Proof.
  destruct mode as [[]|repr]; simpl; unfold read; rewrite ?bind_run.
  - destruct (st !! seg) as [s|]; [|done]. simpl.
    destruct (_ <=? _); [|by intros [= <-]].
    rewrite bind_run. destruct (st !! seg); [|done]. by rewrite bind_assign.
  - destruct (st !! seg) as [s|]; [|done]. simpl.
    destruct (_ <=? _); [|by intros [= <-]].
    rewrite bind_run. destruct (st !! seg); [|done]. by rewrite bind_assign.
  - destruct (st !! seg) as [s|]; [|done]. simpl.
    rewrite bind_run. destruct (st !! seg); [|done]. rewrite bind_assign, bind_run.
    by destruct (_ (alter _ seg st)) as [[[]|e] st1].
  - done.
Qed.

Lemma extend_loop_false seg i delta pe ns extend st st' :
  extend_loop seg i delta pe ns extend st = (Ok false, st') → st' = st.
Proof.
  induction extend as [|mode rest IH]; simpl.
  - by intros [= <-].
  - rewrite bind_run.
    destruct (try_extend _ _ _ _ _ _ _) as [[[]|e] st1] eqn:E; [done| |done].
    apply try_extend_false in E as ->. apply IH.
Qed.

Lemma readonly_ret {A} (a : A) : readonly (mret a).
Proof. by intros st. Qed.

Lemma readonly_len : readonly len_segments.
Proof. by intros st. Qed.

Lemma atomic_quiet {A} nd ext (m : M A) : quiet m → atomic nd ext m.
Proof. intros Hm st d l st' E. by apply Hm in E. Qed.

Lemma atomic_bind {A B} nd ext (m : M A) (f : A → M B) :
  readonly m → quiet m → (∀ a, atomic nd ext (f a)) → atomic nd ext (m ≫= f).
Proof.
  intros Hr Hq Hf st d l st'. rewrite bind_run. specialize (Hr st).
  destruct (m st) as [[a|e] st1] eqn:E; simpl in Hr; subst st1.
  - apply Hf.
  - intros [= He Hs]. subst. by apply Hq in E.
Qed.

Lemma atomic_flag nd ext (m : M bool) :
  (∀ st st', m st = (Ok false, st') → st' = st) → quiet m →
  atomic nd ext (m ≫= λ success_flag : bool,
                   if negb success_flag then raise (ExtensionFailed nd ext) else mret tt).
Proof.
  intros Hf Hq st d l st'. rewrite bind_run.
  destruct (m st) as [[[]|e] st1] eqn:E; simpl.
  - done.
  - intros [= <- <- <-]. by rewrite (Hf _ _ E).
  - intros [= He Hs]. subst. by apply Hq in E.
Qed.

Lemma readonly_prev_seg_end seg_index :
  readonly (if seg_index =? 0 then mret 0 else r ← getitem (seg_index - 1); read r end_).
Proof.
  destruct (_ =? _); [apply readonly_ret|].
  apply readonly_bind; auto with engine.
Qed.

Lemma readonly_next_seg_start seg_index n :
  readonly (if seg_index =? n - 1 then mret unbounded
            else r ← getitem (seg_index + 1); read r start).
Proof.
  destruct (_ =? _); [apply readonly_ret|].
  apply readonly_bind; auto with engine.
Qed.

Lemma atomic_process_timerange seg_index new_duration shrink extend :
  atomic new_duration extend (process_timerange seg_index new_duration shrink extend).
Proof.
  unfold process_timerange.
  apply atomic_bind; [auto with engine..|intros seg].
  apply atomic_bind; [auto with engine..|intros d].
  destruct (_ <? _).
  { apply atomic_quiet. destruct shrink as [[]|repr]; repeat quiet_step. }
  destruct (_ <? _); [|apply atomic_quiet, quiet_ret].
  apply atomic_bind; [apply readonly_prev_seg_end|repeat quiet_step|intros pe].
  apply atomic_bind; [apply readonly_len|apply quiet_len|intros n].
  apply atomic_bind; [apply readonly_next_seg_start|repeat quiet_step|intros ns].
  apply atomic_flag; [apply extend_loop_false|apply quiet_extend_loop].
Qed.

(** ** Frame: what an assignment through [start] or [duration] keeps *)

#[local] Instance same_source_preorder : PreOrder same_source.
Proof.
  split; [by intros st|].
  intros st1 st2 st3 H12 H23. unfold same_source in *. congruence.
Qed.

Lemma keeps_assign_start r v : keeps same_source (assign r (set_start v)).
Proof.
  intros st. unfold same_source. simpl.
  rewrite (list_fmap_alter source_timerange (set_start v) id); [|by apply Forall_true].
  by rewrite list_alter_id.
Qed.

Lemma keeps_assign_duration r v : keeps same_source (assign r (set_duration v)).
Proof.
  intros st. unfold same_source. simpl.
  rewrite (list_fmap_alter source_timerange (set_duration v) id); [|by apply Forall_true].
  by rewrite list_alter_id.
Qed.

Ltac keeps_step :=
  lazymatch goal with
  | |- keeps _ (_ ≫= _) => apply keeps_bind; [apply _| |intros ?]
  | |- keeps _ (if ?c then _ else _) => destruct c
  | |- keeps _ (for_range _ _ _) => apply keeps_for_each; [apply _|intros ?]
  | |- keeps _ (assign _ (set_start _)) => apply keeps_assign_start
  | |- keeps _ (assign _ (set_duration _)) => apply keeps_assign_duration
  | |- keeps _ (getitem _) => apply keeps_readonly; [apply _|apply readonly_getitem]
  | |- keeps _ (read _ _) => apply keeps_readonly; [apply _|apply readonly_read]
  | |- keeps _ _ => by intros ?
  end.

Lemma keeps_try_extend seg i delta pe ns mode :
  keeps same_source (try_extend seg i delta pe ns mode).
Proof. destruct mode as [[]|repr]; simpl; repeat keeps_step. Qed.

Lemma keeps_extend_loop seg i delta pe ns extend :
  keeps same_source (extend_loop seg i delta pe ns extend).
Proof.
  induction extend as [|mode rest IH]; simpl; [by intros ?|].
  apply keeps_bind; [apply _|apply keeps_try_extend|].
  intros []; [by intros ?|apply IH].
Qed.

Lemma keeps_process_timerange seg_index new_duration shrink extend :
  keeps same_source (process_timerange seg_index new_duration shrink extend).
Proof.
  unfold process_timerange.
  apply keeps_bind; [apply _|keeps_step|intros seg].
  apply keeps_bind; [apply _|keeps_step|intros d].
  destruct (new_duration <? d).
  { destruct shrink as [[]|repr]; repeat keeps_step. }
  destruct (d <? new_duration); [|by intros ?].
  apply keeps_bind; [apply _|repeat keeps_step|intros pe].
  apply keeps_bind; [apply _|by intros ?|intros n].
  apply keeps_bind; [apply _|repeat keeps_step|intros ns].
  apply keeps_bind; [apply _|apply keeps_extend_loop|intros flag].
  repeat keeps_step.
Qed.

(** ** Lookups in a shifted list *)

Lemma shift_following_lookup_le r k (st : segment_list) j :
  (j ≤ r)%nat → Rules.shift_following r k st !! j = st !! j.
Proof.
  intros Hj. unfold Rules.shift_following.
  destruct (decide (j < length st)%nat) as [Hlt|Hge].
  - rewrite lookup_app_l by (rewrite length_take; lia).
    apply lookup_take_lt. lia.
  - rewrite lookup_app_r by (rewrite length_take; lia).
    rewrite list_lookup_fmap, lookup_drop, length_take.
    rewrite !lookup_ge_None_2; [done|lia..].
Qed.

Lemma shift_following_lookup_gt r k (st : segment_list) j :
  (r < j)%nat →
  Rules.shift_following r k st !! j = (λ s, set_start (start s + k) s) <$> st !! j.
Proof.
  intros Hj. unfold Rules.shift_following.
  destruct (decide (S r ≤ length st)%nat) as [Hle|Hgt].
  - rewrite lookup_app_r by (rewrite length_take; lia).
    rewrite list_lookup_fmap, lookup_drop, length_take.
    do 2 f_equal. lia.
  - rewrite take_ge, drop_ge by lia. simpl. rewrite app_nil_r.
    by rewrite !lookup_ge_None_2 by lia.
Qed.

Lemma shift_following_length r k (st : segment_list) :
  length (Rules.shift_following r k st) = length st.
Proof.
  unfold Rules.shift_following.
  by rewrite length_app, length_fmap, <- length_app, take_drop.
Qed.

Lemma set_start_same (x : Imported_segment.t) : set_start (start x) x = x.
Proof. by destruct x as [? ? ? []]. Qed.

(** * The shrink regime *)

(** C1, at the input where the code departs from it.  One segment
    [{start:0, duration:10}] is shrunk to [new_duration = 4] under
    [cut_head]: the call returns, the start has moved to 6, but the target
    duration is still 10 (not 4) and the end is 16 (it was 10). *)
Theorem cut_head_leaves_duration :
  process_timerange 0 4 (Member Shrink_mode.cut_head) [] [segment_at 0 10]
    = (Ok tt, [set_start 6 (segment_at 0 10)])
  ∧ duration (set_start 6 (segment_at 0 10)) = 10
  ∧ duration (set_start 6 (segment_at 0 10)) ≠ 4
  ∧ end_ (segment_at 0 10) = 10
  ∧ end_ (set_start 6 (segment_at 0 10)) = 16.
Proof. repeat split; try reflexivity. intros [=]. Qed.

(** The shrink regime returns for each of the four policies; the target
    duration becomes [new_duration] under [cut_tail], [cut_tail_align] and
    [shrink], and stays as it was under [cut_head]. *)
Lemma shrink_regime_returns (st : segment_list) seg_index new_duration s m extend :
  0 ≤ seg_index < Z.of_nat (length st) →
  st !! Z.to_nat seg_index = Some s →
  new_duration < duration s →
  ∃ st' s',
    process_timerange seg_index new_duration (Member m) extend st = (Ok tt, st')
    ∧ st' !! Z.to_nat seg_index = Some s'
    ∧ duration s' = match m with
                    | Shrink_mode.cut_head => duration s
                    | _ => new_duration
                    end.
Proof.
  intros Hvalid Hseg Hshorter.
  assert (Hlt : (Z.to_nat seg_index < length st)%nat) by (by eapply lookup_lt_Some).
  destruct m.
  - eexists _, _. split; [by apply run_cut_head|].
    split; [by apply list_lookup_insert_eq|done].
  - eexists _, _. split; [by apply run_cut_tail|].
    split; [by apply list_lookup_insert_eq|done].
  - eexists _, _. split; [by apply run_cut_tail_align|].
    split; [rewrite shift_following_lookup_le by done; by apply list_lookup_insert_eq|done].
  - eexists _, _. split; [by apply run_shrink|].
    split; [by apply list_lookup_insert_eq|done].
Qed.

(** C5.  Under [cut_tail_align] the addressed segment keeps its start and
    takes [new_duration]; every following segment's start decreases by
    [delta = duration - new_duration]; the segments before it are untouched;
    so the gap to the successor ([start] of the successor minus [end] of the
    addressed segment) is what it was. *)
Theorem cut_tail_align_shifts_followers (st : segment_list) seg_index new_duration s extend :
  0 ≤ seg_index < Z.of_nat (length st) →
  st !! Z.to_nat seg_index = Some s →
  new_duration < duration s →
  ∃ st',
    process_timerange seg_index new_duration (Member Shrink_mode.cut_tail_align) extend st
      = (Ok tt, st')
    ∧ length st' = length st
    ∧ st' !! Z.to_nat seg_index = Some (set_duration new_duration s)
    ∧ start (set_duration new_duration s) = start s
    ∧ duration (set_duration new_duration s) = new_duration
    ∧ (∀ j, (j < Z.to_nat seg_index)%nat → st' !! j = st !! j)
    ∧ (∀ j x, (Z.to_nat seg_index < j)%nat → st !! j = Some x →
         st' !! j = Some (set_start (start x - (duration s - new_duration)) x))
    ∧ (∀ x, st !! S (Z.to_nat seg_index) = Some x →
         ∃ x', st' !! S (Z.to_nat seg_index) = Some x'
               ∧ start x' = start x - (duration s - new_duration)
               ∧ start x' - end_ (set_duration new_duration s) = start x - end_ s).
Proof.
  intros Hvalid Hseg Hshorter.
  assert (Hlt : (Z.to_nat seg_index < length st)%nat) by (by eapply lookup_lt_Some).
  eexists. split; [by apply run_cut_tail_align|].
  assert (Hfollow : ∀ j x, (Z.to_nat seg_index < j)%nat → st !! j = Some x →
    Rules.shift_following (Z.to_nat seg_index) (- (duration s - new_duration))
      (<[Z.to_nat seg_index:=set_duration new_duration s]> st) !! j
    = Some (set_start (start x - (duration s - new_duration)) x)).
  { intros j x Hj Hx. rewrite shift_following_lookup_gt by done.
    rewrite list_lookup_insert_ne by lia. by rewrite Hx. }
  split; [by rewrite shift_following_length, length_insert|].
  split; [rewrite shift_following_lookup_le by done; by apply list_lookup_insert_eq|].
  do 2 (split; [done|]).
  split.
  { intros j Hj. rewrite shift_following_lookup_le by lia.
    apply list_lookup_insert_ne. lia. }
  split; [done|].
  intros x Hx. eexists. split; [apply Hfollow; [lia|done]|].
  split; [done|].
  unfold end_, Timerange.end_, start, duration. simpl. lia.
Qed.

(** The worked example of the specification for [cut_tail_align]. *)
Lemma cut_tail_align_worked_example :
  0 ≤ 0 < Z.of_nat (length worked_example)
  ∧ worked_example !! Z.to_nat 0 = Some (segment_at 1000 5000)
  ∧ 3000 < duration (segment_at 1000 5000)
  ∧ ∃ st',
    process_timerange 0 3000 (Member Shrink_mode.cut_tail_align) [] worked_example
      = (Ok tt, st')
    ∧ length st' = length worked_example
    ∧ st' !! Z.to_nat 0 = Some (set_duration 3000 (segment_at 1000 5000))
    ∧ start (set_duration 3000 (segment_at 1000 5000)) = start (segment_at 1000 5000)
    ∧ duration (set_duration 3000 (segment_at 1000 5000)) = 3000
    ∧ (∀ j, (j < Z.to_nat 0)%nat → st' !! j = worked_example !! j)
    ∧ (∀ j x, (Z.to_nat 0 < j)%nat → worked_example !! j = Some x →
         st' !! j = Some (set_start (start x - (duration (segment_at 1000 5000) - 3000)) x))
    ∧ (∀ x, worked_example !! S (Z.to_nat 0) = Some x →
         ∃ x', st' !! S (Z.to_nat 0) = Some x'
               ∧ start x' = start x - (duration (segment_at 1000 5000) - 3000)
               ∧ start x' - end_ (set_duration 3000 (segment_at 1000 5000))
                 = start x - end_ (segment_at 1000 5000)).
Proof.
  split; [simpl; lia|]. split; [reflexivity|]. split; [reflexivity|].
  apply (cut_tail_align_shifts_followers worked_example 0 3000 (segment_at 1000 5000) []);
    [simpl; lia|reflexivity|reflexivity].
Defined.

(** The same call evaluated: [{start:1000, duration:3000}], successor at 4000. *)
Example cut_tail_align_worked_values :
  process_timerange 0 3000 (Member Shrink_mode.cut_tail_align) [] worked_example
  = (Ok tt, [set_duration 3000 (segment_at 1000 5000); set_start 4000 (segment_at 6000 2000)])
  ∧ target_timerange (set_duration 3000 (segment_at 1000 5000)) = Timerange.mk 1000 3000
  ∧ start (set_start 4000 (segment_at 6000 2000)) = 4000.
Proof. repeat split; reflexivity. Qed.

Lemma midpoint_shift (a d k c : Z) :
  (Rules.midpoint (Timerange.mk (a + k) (d - c)) - Rules.midpoint (Timerange.mk a d)
   == (2 * k - c) # 2)%Q.
Proof.
  unfold Rules.midpoint. simpl.
  unfold Qeq, Qminus, Qplus, Qdiv, Qmult, Qinv, Qopp, inject_Z. simpl. lia.
Qed.

(** C6.  Under [shrink] the call returns, the duration becomes
    [new_duration], the start moves by [delta // 2], and the midpoint of the
    target timerange moves by at most half a microsecond. *)
Theorem shrink_keeps_midpoint (st : segment_list) seg_index new_duration s extend :
  0 ≤ seg_index < Z.of_nat (length st) →
  st !! Z.to_nat seg_index = Some s →
  new_duration < duration s →
  ∃ st' s',
    process_timerange seg_index new_duration (Member Shrink_mode.shrink) extend st
      = (Ok tt, st')
    ∧ st' !! Z.to_nat seg_index = Some s'
    ∧ duration s' = new_duration
    ∧ start s' = start s + (duration s - new_duration) `div` 2
    ∧ (Qabs (Rules.midpoint (target_timerange s') - Rules.midpoint (target_timerange s))
       <= 1 # 2)%Q.
Proof.
  intros Hvalid Hseg Hshorter.
  assert (Hlt : (Z.to_nat seg_index < length st)%nat) by (by eapply lookup_lt_Some).
  eexists _, _. split; [by apply run_shrink|].
  split; [by apply list_lookup_insert_eq|].
  do 2 (split; [done|]).
  destruct s as [raw mid src [a d]].
  cbn [target_timerange set_start set_duration start duration
       Timerange.start Timerange.duration] in *.
  set (c := d - new_duration).
  replace new_duration with (d - c) by (unfold c; lia).
  rewrite (Qabs_wd _ _ (midpoint_shift a d (c `div` 2) c)).
  assert (Hc : -1 ≤ 2 * (c `div` 2) - c ≤ 0) by (pose proof (Z.div_mod c 2); pose proof (Z.mod_pos_bound c 2); lia).
  apply Qabs_Qle_condition. unfold Qle, Qopp. simpl. lia.
Qed.

Lemma shrink_keeps_midpoint_abutting :
  0 ≤ 1 < Z.of_nat (length abutting)
  ∧ abutting !! Z.to_nat 1 = Some (segment_at 10 10)
  ∧ 3 < duration (segment_at 10 10)
  ∧ ∃ st' s',
    process_timerange 1 3 (Member Shrink_mode.shrink) [] abutting = (Ok tt, st')
    ∧ st' !! Z.to_nat 1 = Some s'
    ∧ duration s' = 3
    ∧ start s' = start (segment_at 10 10) + (duration (segment_at 10 10) - 3) `div` 2
    ∧ (Qabs (Rules.midpoint (target_timerange s')
             - Rules.midpoint (target_timerange (segment_at 10 10))) <= 1 # 2)%Q.
Proof.
  split; [simpl; lia|]. split; [reflexivity|]. split; [reflexivity|].
  apply (shrink_keeps_midpoint abutting 1 3 (segment_at 10 10) []);
    [simpl; lia|reflexivity|reflexivity].
Defined.

(** * Arguments that are not checked *)

(** C8, refuted as stated: a negative [new_duration] is accepted.  With one
    segment [{start:0, duration:10}] and [new_duration = -5] under
    [cut_tail] the call returns normally and has stored the duration -5. *)
Lemma negative_duration_accepted :
  process_timerange 0 (-5) (Member Shrink_mode.cut_tail) [] [segment_at 0 10]
    = (Ok tt, [set_duration (-5) (segment_at 0 10)])
  ∧ is_Ok (process_timerange 0 (-5) (Member Shrink_mode.cut_tail) [] [segment_at 0 10]).1
    = true
  ∧ [set_duration (-5) (segment_at 0 10)] ≠ [segment_at 0 10].
Proof. repeat split; try reflexivity. intros [=]. Qed.

(** C8, as the code has it.  [new_duration] is not validated: on a valid
    index and a segment of non-negative duration, a negative [new_duration]
    takes the shrink regime and the call returns normally for each of the
    four shrink policies; under [cut_tail], [cut_tail_align] and [shrink] the
    stored target duration is that negative value. *)
Theorem negative_duration_shrinks (st : segment_list) seg_index new_duration s m extend :
  0 ≤ seg_index < Z.of_nat (length st) →
  st !! Z.to_nat seg_index = Some s →
  0 ≤ duration s →
  new_duration < 0 →
  ∃ st' s',
    process_timerange seg_index new_duration (Member m) extend st = (Ok tt, st')
    ∧ st' !! Z.to_nat seg_index = Some s'
    ∧ (m ≠ Shrink_mode.cut_head → duration s' = new_duration).
Proof.
  intros Hvalid Hseg Hd Hneg.
  destruct (shrink_regime_returns st seg_index new_duration s m extend)
    as (st' & s' & Hrun & Hs' & Hdur); [done|done|lia|].
  exists st', s'. split; [done|]. split; [done|].
  intros Hm. by destruct m.
Qed.

Lemma negative_duration_shrinks_abutting :
  0 ≤ 2 < Z.of_nat (length abutting)
  ∧ abutting !! Z.to_nat 2 = Some (segment_at 20 10)
  ∧ 0 ≤ duration (segment_at 20 10)
  ∧ -1 < 0
  ∧ ∃ st' s',
    process_timerange 2 (-1) (Member Shrink_mode.shrink) [] abutting = (Ok tt, st')
    ∧ st' !! Z.to_nat 2 = Some s'
    ∧ (Shrink_mode.shrink ≠ Shrink_mode.cut_head → duration s' = -1).
Proof.
  split; [simpl; lia|]. split; [reflexivity|]. split; [compute_done|]. split; [reflexivity|].
  apply (negative_duration_shrinks abutting 2 (-1) (segment_at 20 10) Shrink_mode.shrink []);
    [simpl; lia|reflexivity|compute_done|reflexivity].
Defined.

(** * Frame on the source timeranges *)

(** C7, refuted as stated: the call does not set [source_timerange.duration].
    A segment with source [{start:0, duration:10}] shrunk to 4 under
    [cut_tail] still has source duration 10. *)
Lemma source_duration_not_set :
  ∃ s',
    process_timerange 0 4 (Member Shrink_mode.cut_tail) [] [segment_at 0 10] = (Ok tt, [s'])
    ∧ Timerange.duration (target_timerange s') = 4
    ∧ source_timerange s' = source_timerange (segment_at 0 10)
    ∧ Timerange.duration (source_timerange s') = 10
    ∧ Timerange.duration (source_timerange s') ≠ 4.
Proof.
  exists (set_duration 4 (segment_at 0 10)).
  repeat split; try reflexivity. compute_done.
Qed.

(** C7, as the code has it.  For every policy and every input, whether the
    call returns or raises, the source timerange of every segment (its start
    and its duration) is what it was before the call. *)
Theorem process_timerange_keeps_source seg_index new_duration shrink extend
    (st : segment_list) :
  source_timerange <$> (process_timerange seg_index new_duration shrink extend st).2
  = source_timerange <$> st.
Proof. apply keeps_process_timerange. Qed.

(** * The extend regime *)

(** C2.  When the call raises [ExtensionFailed], the exception carries the
    requested duration and the list of policies that was passed, and the
    segment list is the one before the call: in particular every target and
    source timerange is unchanged. *)
Theorem extension_failed_is_atomic seg_index new_duration shrink extend
    (st st' : segment_list) d l :
  process_timerange seg_index new_duration shrink extend st
    = (Raise (ExtensionFailed d l), st') →
  d = new_duration ∧ l = extend ∧ st' = st
  ∧ target_timerange <$> st' = target_timerange <$> st
  ∧ source_timerange <$> st' = source_timerange <$> st.
Proof.
  intros Hrun. apply atomic_process_timerange in Hrun as (-> & -> & ->). done.
Qed.

(** Three abutting segments, the middle one extended with only
    [extend_head] and [extend_tail] listed. *)
Lemma extension_failed_abutting :
  process_timerange 1 20 (Member Shrink_mode.cut_tail)
      [Member Extend_mode.extend_head; Member Extend_mode.extend_tail] abutting
    = (Raise (ExtensionFailed 20 [Member Extend_mode.extend_head; Member Extend_mode.extend_tail]),
       abutting)
  ∧ (20 = 20
     ∧ [Member Extend_mode.extend_head; Member Extend_mode.extend_tail]
       = [Member Extend_mode.extend_head; Member Extend_mode.extend_tail]
     ∧ abutting = abutting
     ∧ target_timerange <$> abutting = target_timerange <$> abutting
     ∧ source_timerange <$> abutting = source_timerange <$> abutting).
Proof.
  split; [reflexivity|].
  apply (extension_failed_is_atomic 1 20 (Member Shrink_mode.cut_tail)
           [Member Extend_mode.extend_head; Member Extend_mode.extend_tail]
           abutting abutting 20
           [Member Extend_mode.extend_head; Member Extend_mode.extend_tail]).
  reflexivity.
Defined.

(** C3.  In the extend regime, on a list of policies of the enumeration,
    the call commits the effect of the first policy, in the order given,
    whose condition of the specification's table holds, and raises
    [ExtensionFailed] on an unchanged state when none holds.  [extend_head]
    alone returns exactly when [start - delta >= prev_end]; when that fails,
    the loop continues with the rest of the list on the same state. *)
Theorem extend_commits_first_success (st : segment_list) seg_index new_duration s shrink
    (modes : list Extend_mode.t) :
  0 ≤ seg_index < Z.of_nat (length st) →
  st !! Z.to_nat seg_index = Some s →
  duration s < new_duration →
  process_timerange seg_index new_duration shrink (Member <$> modes) st
    = match find (Rules.succeeds_when s (new_duration - duration s)
                    (Rules.prev_end st (Z.to_nat seg_index))
                    (Rules.next_start st (Z.to_nat seg_index))) modes with
      | Some m =>
          (Ok tt, Rules.effect_on_success s (Z.to_nat seg_index) (new_duration - duration s)
                    (Rules.next_start st (Z.to_nat seg_index)) st m)
      | None => (Raise (ExtensionFailed new_duration (Member <$> modes)), st)
      end
  ∧ ((process_timerange seg_index new_duration shrink [Member Extend_mode.extend_head] st).1
       = Ok tt
     ↔ Rules.prev_end st (Z.to_nat seg_index) ≤ start s - (new_duration - duration s))
  ∧ (Rules.prev_end st (Z.to_nat seg_index) ≤ start s - (new_duration - duration s) →
     ∀ rest,
       process_timerange seg_index new_duration shrink
         (Member Extend_mode.extend_head :: rest) st
       = (Ok tt, <[Z.to_nat seg_index := set_start (start s - (new_duration - duration s)) s]> st))
  ∧ (start s - (new_duration - duration s) < Rules.prev_end st (Z.to_nat seg_index) →
     ∀ rest,
       extend_loop (Z.to_nat seg_index) seg_index (new_duration - duration s)
         (Rules.prev_end st (Z.to_nat seg_index)) (Rules.next_start st (Z.to_nat seg_index))
         (Member Extend_mode.extend_head :: rest) st
       = extend_loop (Z.to_nat seg_index) seg_index (new_duration - duration s)
           (Rules.prev_end st (Z.to_nat seg_index)) (Rules.next_start st (Z.to_nat seg_index))
           rest st).
Proof.
  intros Hvalid Hseg Hlonger.
  set (r := Z.to_nat seg_index). set (delta := new_duration - duration s).
  set (pe := Rules.prev_end st r). set (ns := Rules.next_start st r).
  assert (Hhead : ∀ rest,
    extend_loop r seg_index delta pe ns (Member Extend_mode.extend_head :: rest) st
    = if pe <=? start s - delta
      then (Ok true, <[r := set_start (start s - delta) s]> st)
      else extend_loop r seg_index delta pe ns rest st).
  { intros rest. cbn [extend_loop]. rewrite bind_run.
    rewrite (run_try_extend st seg_index s Hvalid Hseg). cbn [Rules.succeeds_when].
    by destruct (pe <=? start s - delta). }
  split; [|split; [|split]].
  - rewrite (run_extend st seg_index new_duration s Hvalid Hseg Hlonger).
    rewrite (run_extend_loop st seg_index s Hvalid Hseg).
    by destruct (find _ modes).
  - rewrite (run_extend st seg_index new_duration s Hvalid Hseg Hlonger).
    fold r delta pe ns. rewrite Hhead. cbn [extend_loop].
    destruct (Z.leb_spec pe (start s - delta)); simpl; split; (done || lia).
  - intros Hroom rest.
    rewrite (run_extend st seg_index new_duration s Hvalid Hseg Hlonger).
    fold r delta pe ns. rewrite Hhead.
    destruct (Z.leb_spec pe (start s - delta)); [done|lia].
  - intros Hnoroom rest. rewrite Hhead.
    destruct (Z.leb_spec pe (start s - delta)); [lia|done].
Qed.

(** The middle of three spaced segments, [{start:15, duration:10}] between
    an end at 5 and a start at 30, extended to 25: [extend_head] lacks room
    (15 - 15 < 5) and so does [extend_tail] (25 + 15 > 30), so the third
    listed policy, [push_tail], is the first to succeed. *)
Lemma extend_commits_first_success_spaced :
  0 ≤ 1 < Z.of_nat (length spaced)
  ∧ spaced !! Z.to_nat 1 = Some (segment_at 15 10)
  ∧ duration (segment_at 15 10) < 25
  ∧ process_timerange 1 25 (Member Shrink_mode.cut_tail)
      (Member <$> [Extend_mode.extend_head; Extend_mode.extend_tail; Extend_mode.push_tail])
      spaced
    = (Ok tt, [segment_at 0 5; set_duration 25 (segment_at 15 10);
               set_start 40 (segment_at 30 10)]).
Proof.
  split; [simpl; lia|]. split; [reflexivity|]. split; [reflexivity|].
  rewrite (proj1 (extend_commits_first_success spaced 1 25 (segment_at 15 10)
                    (Member Shrink_mode.cut_tail)
                    [Extend_mode.extend_head; Extend_mode.extend_tail; Extend_mode.push_tail]
                    ltac:(simpl; lia) eq_refl eq_refl)).
  reflexivity.
Defined.

(** C4.  [push_tail] placed first returns normally whatever the
    neighbours: the addressed segment keeps its start and takes
    [new_duration]; the segments before it are untouched; every following
    segment's start grows by [end + delta - next_start] when that is
    positive and by 0 otherwise; and a successor that abutted the segment
    starts at the segment's new end, [start + duration + delta]. *)
Theorem push_tail_shifts_followers (st : segment_list) seg_index new_duration s shrink rest :
  0 ≤ seg_index < Z.of_nat (length st) →
  st !! Z.to_nat seg_index = Some s →
  duration s < new_duration →
  ∃ st',
    process_timerange seg_index new_duration shrink (Member Extend_mode.push_tail :: rest) st
      = (Ok tt, st')
    ∧ length st' = length st
    ∧ st' !! Z.to_nat seg_index = Some (set_duration new_duration s)
    ∧ (∀ j, (j < Z.to_nat seg_index)%nat → st' !! j = st !! j)
    ∧ (∀ j x, (Z.to_nat seg_index < j)%nat → st !! j = Some x →
         st' !! j
         = Some (set_start
                   (start x
                    + (if 0 <? end_ s + (new_duration - duration s)
                               - Rules.next_start st (Z.to_nat seg_index)
                       then end_ s + (new_duration - duration s)
                            - Rules.next_start st (Z.to_nat seg_index)
                       else 0)) x))
    ∧ (∀ b, st !! S (Z.to_nat seg_index) = Some b → start b = end_ s →
         ∃ b', st' !! S (Z.to_nat seg_index) = Some b'
               ∧ start b' = end_ (set_duration new_duration s)
               ∧ start b' = start s + duration s + (new_duration - duration s)).
Proof.
  intros Hvalid Hseg Hlonger.
  set (r := Z.to_nat seg_index). set (delta := new_duration - duration s).
  set (ns := Rules.next_start st r).
  assert (Hlt : (r < length st)%nat) by (by eapply lookup_lt_Some).
  rewrite (run_extend st seg_index new_duration s Hvalid Hseg Hlonger).
  cbn [extend_loop]. rewrite bind_run, (run_try_extend st seg_index s Hvalid Hseg).
  cbn [Rules.succeeds_when Rules.effect_on_success]. fold r delta ns.
  replace (duration s + delta) with new_duration by (unfold delta; lia).
  assert (Hfollow : ∀ j x, (r < j)%nat → st !! j = Some x →
    (if ns <? end_ s + delta
     then Rules.shift_following r (end_ s + delta - ns) (<[r:=set_duration new_duration s]> st)
     else <[r:=set_duration new_duration s]> st) !! j
    = Some (set_start (start x + (if 0 <? end_ s + delta - ns
                                  then end_ s + delta - ns else 0)) x)).
  { intros j x Hj Hx.
    destruct (Z.ltb_spec ns (end_ s + delta)), (Z.ltb_spec 0 (end_ s + delta - ns));
      try lia.
    - rewrite shift_following_lookup_gt by done.
      rewrite list_lookup_insert_ne by lia. by rewrite Hx.
    - rewrite list_lookup_insert_ne by lia.
      by rewrite Z.add_0_r, set_start_same. }
  eexists. split; [done|].
  split.
  { destruct (ns <? _); by rewrite ?shift_following_length, length_insert. }
  split.
  { destruct (ns <? _); rewrite ?shift_following_lookup_le by done;
      by apply list_lookup_insert_eq. }
  split.
  { intros j Hj. destruct (ns <? _); rewrite ?shift_following_lookup_le by lia;
      apply list_lookup_insert_ne; lia. }
  split; [done|].
  intros b Hb Habut. eexists. split; [apply Hfollow; [lia|done]|].
  assert (Hns : ns = start b) by (unfold ns, Rules.next_start; fold r; by rewrite Hb).
  destruct (Z.ltb_spec 0 (end_ s + delta - ns)).
  - split; unfold end_, Timerange.end_, start, duration in *; simpl; lia.
  - unfold delta in *. lia.
Qed.

Lemma push_tail_shifts_followers_abutting :
  0 ≤ 0 < Z.of_nat (length abutting)
  ∧ abutting !! Z.to_nat 0 = Some (segment_at 0 10)
  ∧ duration (segment_at 0 10) < 17
  ∧ ∃ st',
    process_timerange 0 17 (Member Shrink_mode.cut_tail) [Member Extend_mode.push_tail] abutting
      = (Ok tt, st')
    ∧ length st' = length abutting
    ∧ st' !! Z.to_nat 0 = Some (set_duration 17 (segment_at 0 10))
    ∧ (∀ j, (j < Z.to_nat 0)%nat → st' !! j = abutting !! j)
    ∧ (∀ j x, (Z.to_nat 0 < j)%nat → abutting !! j = Some x →
         st' !! j
         = Some (set_start
                   (start x
                    + (if 0 <? end_ (segment_at 0 10) + (17 - duration (segment_at 0 10))
                               - Rules.next_start abutting (Z.to_nat 0)
                       then end_ (segment_at 0 10) + (17 - duration (segment_at 0 10))
                            - Rules.next_start abutting (Z.to_nat 0)
                       else 0)) x))
    ∧ (∀ b, abutting !! S (Z.to_nat 0) = Some b → start b = end_ (segment_at 0 10) →
         ∃ b', st' !! S (Z.to_nat 0) = Some b'
               ∧ start b' = end_ (set_duration 17 (segment_at 0 10))
               ∧ start b' = start (segment_at 0 10) + duration (segment_at 0 10)
                            + (17 - duration (segment_at 0 10))).
Proof.
  split; [simpl; lia|]. split; [reflexivity|]. split; [reflexivity|].
  apply (push_tail_shifts_followers abutting 0 17 (segment_at 0 10)
           (Member Shrink_mode.cut_tail) []); [simpl; lia|reflexivity|reflexivity].
Defined.

(** The same call evaluated: the successor that abutted at 10 now starts at
    the new end 17, and the one after it moved by the same 7. *)
Example push_tail_abutting_values :
  process_timerange 0 17 (Member Shrink_mode.cut_tail) [Member Extend_mode.push_tail] abutting
  = (Ok tt, [set_duration 17 (segment_at 0 10); set_start 17 (segment_at 10 10);
             set_start 27 (segment_at 20 10)]).
Proof. reflexivity. Qed.

(** * Loading and re-emitting descriptors *)

Lemma outcome_bind_Ok {A B} (f : A → outcome B) (m : outcome A) b :
  m ≫= f = Ok b → ∃ a, m = Ok a ∧ f a = Ok b.
Proof. destruct m as [a|e]; [by exists a|done]. Qed.

Lemma mapM_Ok_Forall2 {A B} (f : A → outcome B) l k :
  mapM f l = Ok k → Forall2 (λ x y, f x = Ok y) l k.
Proof.
  revert k. induction l as [|x l IH]; intros k; simpl.
  - intros [= <-]. constructor.
  - intros (y & Hy & (k' & Hk' & [= <-])%outcome_bind_Ok)%outcome_bind_Ok.
    constructor; auto.
Qed.

Lemma mapM_Ok_length {A B} (f : A → outcome B) l k :
  mapM f l = Ok k → length k = length l.
Proof. intros H%mapM_Ok_Forall2. symmetry. by eapply Forall2_length. Qed.

Lemma timerange_import_export tr :
  Timerange.import_json (Timerange.export_json tr) = Ok tr.
Proof. by destruct tr. Qed.

Lemma subscript_Ok j key v :
  subscript j key = Ok v → ∃ m, j = JObj m ∧ m !! key = Some v.
Proof.
  destruct j as [| | | | | |m]; try done. simpl.
  destruct (m !! key) eqn:E; [|done]. intros [= <-]. eauto.
Qed.

Lemma dict_update_subseteq (m other : gmap string json) :
  other ⊆ m → dict_update (JObj m) other = Ok (JObj m).
Proof. intros Hsub. simpl. by rewrite (map_subseteq_union _ _ Hsub). Qed.

(** A segment loaded from a descriptor of the specified shape is re-emitted
    as that descriptor. *)
Lemma segment_roundtrip seg sg :
  Imported_segment.init seg = Ok sg → segment_shaped seg →
  Imported_segment.export_json sg = Ok seg.
Proof.
  unfold Imported_segment.init, assign_attr_with_json. intros Hinit Hshape.
  apply outcome_bind_Ok in Hinit as ([[mid src] tgt] & Hattr & [= <-]).
  apply outcome_bind_Ok in Hattr as (jmid & Hmid & Hattr).
  apply outcome_bind_Ok in Hattr as (mid' & Hstr & Hattr).
  apply outcome_bind_Ok in Hattr as (src' & Hsrc & Hattr).
  apply outcome_bind_Ok in Hattr as (tgt' & Htgt & [= <- <- <-]).
  apply outcome_bind_Ok in Hsrc as (jsrc & Hjsrc & Hsrc).
  apply outcome_bind_Ok in Htgt as (jtgt & Hjtgt & Htgt).
  destruct jmid; try done. injection Hstr as ->.
  destruct (Hshape jsrc (or_introl Hjsrc)) as [tr1 ->].
  destruct (Hshape jtgt (or_intror Hjtgt)) as [tr2 ->].
  rewrite timerange_import_export in Hsrc, Htgt.
  injection Hsrc as <-. injection Htgt as <-.
  apply subscript_Ok in Hmid as (m & -> & Hmid).
  apply subscript_Ok in Hjsrc as (m' & [= <-] & Hjsrc).
  apply subscript_Ok in Hjtgt as (m' & [= <-] & Hjtgt).
  unfold Imported_segment.export_json, export_attr_to_json. cbn [raw_data material_id
    source_timerange target_timerange].
  apply dict_update_subseteq.
  repeat (apply insert_subseteq_l; [done|]). apply map_empty_subseteq.
Qed.

Lemma segments_roundtrip segs sl :
  Forall2 (λ seg sg, Imported_segment.init seg = Ok sg) segs sl →
  Forall segment_shaped segs →
  mapM Imported_segment.export_json sl = Ok segs.
Proof.
  induction 1 as [|seg sg segs sl Hinit _ IH]; [done|].
  intros [Hshape Hrest]%Forall_cons. simpl.
  rewrite (segment_roundtrip _ _ Hinit Hshape). simpl.
  by rewrite (IH Hrest).
Qed.

Section tracks.

Context `{Env}.

(** The derivation of [render_index] succeeds only on a non-empty list of
    segment descriptors. *)
Lemma render_index_Ok json_data ri :
  (segs ← subscript json_data "segments" ≫= py_iter;
   mapM (λ seg, subscript seg "render_index" ≫= py_int) segs ≫= py_max) = Ok ri →
  ∃ seg segs, subscript json_data "segments" = Ok (JList (seg :: segs)).
Proof.
  intros (l & Hl & (ris & Hris & Hmax)%outcome_bind_Ok)%outcome_bind_Ok.
  apply outcome_bind_Ok in Hl as (v & Hv & Hiter).
  destruct ris as [|x ris]; [done|].
  apply mapM_Ok_Forall2 in Hris.
  destruct l as [|seg l]; [by inversion Hris|].
  apply Forall2_cons in Hris as [Hseg _].
  apply outcome_bind_Ok in Hseg as (jr & (m & -> & _)%subscript_Ok & _).
  destruct v as [| | | |str|l'|m']; try done.
  - simpl in Hiter. destruct (String.list_ascii_of_string str); done.
  - injection Hiter as ->. eauto.
  - simpl in Hiter. destruct ((map_to_list m').*1); done.
Qed.

(** C10.  A descriptor whose [segments] list is empty is rejected by both
    constructors; a constructed [Imported_track] has at least one segment,
    so [start_time] and [end_time] take their second branch and return the
    start of the first and the end of the last segment; a constructed
    [Static_track] comes from a descriptor with a first segment. *)
Theorem constructed_track_has_segments (json_data : json) :
  (subscript json_data "segments" = Ok (JList []) →
     is_Ok (Static_track.init json_data) = false
     ∧ is_Ok (Imported_track.init json_data) = false)
  ∧ (∀ t, Static_track.init json_data = Ok t →
       ∃ seg segs, subscript json_data "segments" = Ok (JList (seg :: segs)))
  ∧ (∀ t, Imported_track.init json_data = Ok t →
       (1 ≤ length (Imported_track.segments t))%nat
       ∧ (Imported_track.len t =? 0) = false
       ∧ ∃ first final,
           Imported_track.segments t !! 0%nat = Some first
           ∧ last (Imported_track.segments t) = Some final
           ∧ Imported_track.start_time t = Ok (Timerange.start (target_timerange first))
           ∧ Imported_track.end_time t = Ok (Timerange.end_ (target_timerange final))).
Proof.
  split; [|split].
  - intros Hempty.
    assert (Hri : ∀ ri,
      (segs ← subscript json_data "segments" ≫= py_iter;
       mapM (λ seg, subscript seg "render_index" ≫= py_int) segs ≫= py_max) ≠ Ok ri).
    { intros ri (seg & segs & Hsegs)%render_index_Ok. congruence. }
    split.
    + destruct (Static_track.init json_data) as [t|e] eqn:Hinit; [exfalso|done].
      unfold Static_track.init in Hinit.
      apply outcome_bind_Ok in Hinit as (ty & _ & Hinit).
      apply outcome_bind_Ok in Hinit as (nm & _ & Hinit).
      apply outcome_bind_Ok in Hinit as (id & _ & Hinit).
      apply outcome_bind_Ok in Hinit as (ri & Hinit & _).
      by apply Hri in Hinit.
    + destruct (Imported_track.init json_data) as [t|e] eqn:Hinit; [exfalso|done].
      unfold Imported_track.init in Hinit.
      apply outcome_bind_Ok in Hinit as (ty & _ & Hinit).
      apply outcome_bind_Ok in Hinit as (nm & _ & Hinit).
      apply outcome_bind_Ok in Hinit as (id & _ & Hinit).
      apply outcome_bind_Ok in Hinit as (ri & Hinit & _).
      by apply Hri in Hinit.
  - intros t Hinit. unfold Static_track.init in Hinit.
    apply outcome_bind_Ok in Hinit as (ty & _ & Hinit).
    apply outcome_bind_Ok in Hinit as (nm & _ & Hinit).
    apply outcome_bind_Ok in Hinit as (id & _ & Hinit).
    apply outcome_bind_Ok in Hinit as (ri & Hinit & _).
    by apply render_index_Ok in Hinit.
  - intros t Hinit. unfold Imported_track.init in Hinit.
    apply outcome_bind_Ok in Hinit as (ty & _ & Hinit).
    apply outcome_bind_Ok in Hinit as (nm & _ & Hinit).
    apply outcome_bind_Ok in Hinit as (id & _ & Hinit).
    apply outcome_bind_Ok in Hinit as (ri & Hri & Hinit).
    apply outcome_bind_Ok in Hinit as (l & Hl & Hinit).
    apply outcome_bind_Ok in Hinit as (sl & Hsl & [= <-]).
    apply render_index_Ok in Hri as (seg & segs & Hsegs).
    rewrite Hsegs in Hl. injection Hl as <-.
    apply mapM_Ok_length in Hsl. cbn [Imported_track.segments].
    destruct sl as [|first sl]; [done|].
    destruct (last (first :: sl)) as [final|] eqn:Hlast;
      [|by apply last_None in Hlast].
    split; [simpl; lia|]. split; [unfold Imported_track.len; simpl; lia|].
    exists first, final. split; [done|]. split; [done|]. split; [done|].
    unfold Imported_track.end_time, Imported_track.len, Imported_track.segments_getitem.
    cbn [Imported_track.segments length].
    destruct (Z.eqb_spec (Z.of_nat (S (length sl))) 0); [lia|].
    unfold py_position.
    destruct (Z.leb_spec 0 (-1)); [lia|].
    destruct (Z.leb_spec (- Z.of_nat (S (length sl))) (-1)); [|lia].
    replace (Z.to_nat (Z.of_nat (S (length sl)) + -1)) with (length sl) by lia.
    rewrite last_lookup in Hlast. cbn [length Nat.pred mbind option_bind] in Hlast |- *.
    by rewrite Hlast.
Qed.

(** C9.  A [Static_track] re-emits the descriptor it was built from.  An
    [Imported_track] built from a descriptor whose timeranges have the
    specified shape, and not modified since, re-emits that descriptor, with
    every other field of the track and of each segment as it was; the
    emitted dict is also what [raw_data] then holds. *)
Theorem load_export_roundtrip (json_data : json) :
  (∀ t, Static_track.init json_data = Ok t → Static_track.export_json t = json_data)
  ∧ (∀ t, Imported_track.init json_data = Ok t → track_shaped json_data →
       ∃ t', Imported_track.export_json t = Ok (json_data, t')
             ∧ Imported_track.raw_data t' = json_data
             ∧ Imported_track.segments t' = Imported_track.segments t).
Proof.
  split.
  - intros t Hinit. unfold Static_track.init in Hinit.
    apply outcome_bind_Ok in Hinit as (ty & _ & Hinit).
    apply outcome_bind_Ok in Hinit as (nm & _ & Hinit).
    apply outcome_bind_Ok in Hinit as (id & _ & Hinit).
    by apply outcome_bind_Ok in Hinit as (ri & _ & [= <-]).
  - intros t Hinit Hshape. unfold Imported_track.init in Hinit.
    apply outcome_bind_Ok in Hinit as (ty & _ & Hinit).
    apply outcome_bind_Ok in Hinit as (nm & _ & Hinit).
    apply outcome_bind_Ok in Hinit as (id & _ & Hinit).
    apply outcome_bind_Ok in Hinit as (ri & Hri & Hinit).
    apply outcome_bind_Ok in Hinit as (l & Hl & Hinit).
    apply outcome_bind_Ok in Hinit as (sl & Hsl & [= <-]).
    apply render_index_Ok in Hri as (seg & segs & Hsegs).
    rewrite Hsegs in Hl. injection Hl as <-.
    apply mapM_Ok_Forall2 in Hsl.
    unfold Imported_track.export_json.
    cbn [Imported_track.segments Imported_track.raw_data].
    rewrite (segments_roundtrip _ _ Hsl (Hshape _ Hsegs)).
    apply subscript_Ok in Hsegs as (m & -> & Hm).
    cbn [mbind outcome_bind].
    rewrite dict_update_subseteq
      by (apply insert_subseteq_l; [done|apply map_empty_subseteq]).
    eexists. split; [done|]. by split.
Qed.

End tracks.

Lemma segment_descriptor_shaped a d : segment_shaped (segment_descriptor a d).
Proof.
  intros v [Hv|Hv]; vm_compute in Hv; injection Hv as <-.
  - by exists (Timerange.mk 0 d).
  - by exists (Timerange.mk a d).
Qed.

Lemma sample_descriptor_shaped : track_shaped sample_descriptor.
Proof.
  intros segs Hsegs. vm_compute in Hsegs. injection Hsegs as <-.
  repeat constructor; apply segment_descriptor_shaped.
Defined.

Lemma constructed_track_has_segments_sample :
  subscript empty_descriptor "segments" = Ok (JList [])
  ∧ is_Ok (@Static_track.init sample_env empty_descriptor) = false
  ∧ is_Ok (@Imported_track.init sample_env empty_descriptor) = false
  ∧ ∃ t, @Imported_track.init sample_env sample_descriptor = Ok t
      ∧ (1 ≤ length (Imported_track.segments t))%nat
      ∧ (Imported_track.len t =? 0) = false
      ∧ ∃ first final,
          Imported_track.segments t !! 0%nat = Some first
          ∧ last (Imported_track.segments t) = Some final
          ∧ Imported_track.start_time t = Ok (Timerange.start (target_timerange first))
          ∧ Imported_track.end_time t = Ok (Timerange.end_ (target_timerange final)).
Proof.
  split; [reflexivity|].
  destruct (proj1 (@constructed_track_has_segments sample_env empty_descriptor) eq_refl)
    as [Hstatic Himported].
  split; [exact Hstatic|]. split; [exact Himported|].
  destruct (@Imported_track.init sample_env sample_descriptor) as [t|e] eqn:Hinit;
    [|vm_compute in Hinit; discriminate Hinit].
  exists t. split; [reflexivity|].
  exact (proj2 (proj2 (@constructed_track_has_segments sample_env sample_descriptor)) t Hinit).
Defined.

(** The sample track evaluated: it starts at 0 and ends at 15. *)
Example sample_track_times :
  ∃ t, @Imported_track.init sample_env sample_descriptor = Ok t
       ∧ Imported_track.start_time t = Ok 0
       ∧ Imported_track.end_time t = Ok 15.
Proof. eexists. split; [vm_compute; reflexivity|]. split; reflexivity. Qed.

Lemma load_export_roundtrip_sample :
  (∃ t, @Static_track.init sample_env sample_descriptor = Ok t
        ∧ Static_track.export_json t = sample_descriptor)
  ∧ track_shaped sample_descriptor
  ∧ ∃ t t', @Imported_track.init sample_env sample_descriptor = Ok t
      ∧ Imported_track.export_json t = Ok (sample_descriptor, t')
      ∧ Imported_track.raw_data t' = sample_descriptor
      ∧ Imported_track.segments t' = Imported_track.segments t.
Proof.
  split; [|split; [exact sample_descriptor_shaped|]].
  - destruct (@Static_track.init sample_env sample_descriptor) as [t|e] eqn:Hinit;
      [|vm_compute in Hinit; discriminate Hinit].
    exists t. split; [reflexivity|].
    exact (proj1 (@load_export_roundtrip sample_env sample_descriptor) t Hinit).
  - destruct (@Imported_track.init sample_env sample_descriptor) as [t|e] eqn:Hinit;
      [|vm_compute in Hinit; discriminate Hinit].
    destruct (proj2 (@load_export_roundtrip sample_env sample_descriptor) t Hinit
                sample_descriptor_shaped) as (t' & Hexport & Hraw & Hsegs).
    exists t, t'. split; [reflexivity|]. split; [exact Hexport|]. by split.
Defined.

(** * Further properties of [process_timerange] *)

Lemma py_position_Some n i r : py_position n i = Some r → (r < n)%nat.
Proof.
  unfold py_position.
  destruct (Z.leb_spec 0 i).
  - destruct (Z.ltb_spec i (Z.of_nat n)); [|done]. intros [= <-]. lia.
  - destruct (Z.leb_spec (- Z.of_nat n) i); [|done]. intros [= <-]. lia.
Qed.

Lemma py_position_None n i : i < - Z.of_nat n ∨ Z.of_nat n ≤ i → py_position n i = None.
Proof.
  intros Hi. unfold py_position.
  destruct (Z.leb_spec 0 i).
  - destruct (Z.ltb_spec i (Z.of_nat n)); [lia|done].
  - destruct (Z.leb_spec (- Z.of_nat n) i); [lia|done].
Qed.

Lemma py_position_negative n i :
  0 ≤ i < Z.of_nat n → py_position n (i - Z.of_nat n) = Some (Z.to_nat i).
Proof.
  intros Hi. unfold py_position.
  destruct (Z.leb_spec 0 (i - Z.of_nat n)); [lia|].
  destruct (Z.leb_spec (- Z.of_nat n) (i - Z.of_nat n)); [|lia].
  f_equal. lia.
Qed.

(** The call up to the choice of regime, on any index that addresses a
    segment. *)
Lemma run_enter (st : segment_list) seg_index new_duration shrink extend r s :
  py_position (length st) seg_index = Some r →
  st !! r = Some s →
  process_timerange seg_index new_duration shrink extend st
  = (d ← read r duration;
     let delta_duration := Z.abs (new_duration - d) in
     if new_duration <? d then
       match shrink with
       | Member Shrink_mode.cut_head =>
           s ← read r start; assign r (set_start (s + delta_duration))
       | Member Shrink_mode.cut_tail =>
           d ← read r duration; assign r (set_duration (d - delta_duration))
       | Member Shrink_mode.cut_tail_align =>
           d ← read r duration;
           assign r (set_duration (d - delta_duration));;
           n ← len_segments;
           for_range (seg_index + 1) n (fun i =>
             r ← getitem i; s ← read r start; assign r (set_start (s - delta_duration)))
       | Member Shrink_mode.shrink =>
           d ← read r duration;
           assign r (set_duration (d - delta_duration));;
           s ← read r start;
           assign r (set_start (s + delta_duration `div` 2))
       | Other repr => raise (ValueError repr)
       end
     else if d <? new_duration then
       prev_seg_end ← (if seg_index =? 0 then mret 0
                       else r ← getitem (seg_index - 1); read r end_);
       n ← len_segments;
       next_seg_start ← (if seg_index =? n - 1 then mret unbounded
                         else r ← getitem (seg_index + 1); read r start);
       success_flag ← extend_loop r seg_index delta_duration prev_seg_end next_seg_start extend;
       if negb success_flag then raise (ExtensionFailed new_duration extend)
       else mret tt
     else mret tt) st.
Proof.
  intros Hpos Hs. unfold process_timerange. rewrite bind_run.
  unfold getitem at 1. by rewrite Hpos.
Qed.

(** X1.  When [new_duration] equals the current duration the call returns
    at once and changes nothing, whatever the policy arguments are, also
    values outside the enumerations. *)
Theorem equal_duration_is_noop (st : segment_list) seg_index shrink extend r s :
  py_position (length st) seg_index = Some r →
  st !! r = Some s →
  process_timerange seg_index (duration s) shrink extend st = (Ok tt, st).
Proof.
  intros Hpos Hs. rewrite (run_enter _ _ _ _ _ r s Hpos Hs).
  rewrite (bind_read _ _ _ _ _ Hs).
  by rewrite !Z.ltb_irrefl.
Qed.

Lemma equal_duration_is_noop_abutting :
  py_position (length abutting) (-1) = Some 2%nat
  ∧ abutting !! 2%nat = Some (segment_at 20 10)
  ∧ process_timerange (-1) (duration (segment_at 20 10)) (Other "trim")
      [Other "grow"] abutting = (Ok tt, abutting).
Proof.
  split; [reflexivity|]. split; [reflexivity|].
  apply (equal_duration_is_noop abutting (-1) (Other "trim") [Other "grow"] 2
           (segment_at 20 10)); reflexivity.
Defined.

(** X2.  An index outside [-len, len) raises [IndexError] before anything
    is read or assigned; on an empty track every index does. *)
Theorem index_out_of_range (st : segment_list) seg_index new_duration shrink extend :
  seg_index < - Z.of_nat (length st) ∨ Z.of_nat (length st) ≤ seg_index →
  process_timerange seg_index new_duration shrink extend st = (Raise IndexError, st).
Proof.
  intros Hi. unfold process_timerange. rewrite bind_run.
  unfold getitem. by rewrite py_position_None.
Qed.

Lemma index_out_of_range_abutting :
  (3 < - Z.of_nat (length abutting) ∨ Z.of_nat (length abutting) ≤ 3)
  ∧ process_timerange 3 5 (Member Shrink_mode.cut_tail) [] abutting = (Raise IndexError, abutting).
Proof.
  split; [right; simpl; lia|].
  apply (index_out_of_range abutting 3 5 (Member Shrink_mode.cut_tail) []).
  right. simpl. lia.
Defined.

(** X3.  In the shrink regime a [shrink] argument that is not a member of
    [Shrink_mode] raises [ValueError] naming it, and no segment has been
    changed. *)
Theorem unsupported_shrink_mode (st : segment_list) seg_index new_duration repr extend r s :
  py_position (length st) seg_index = Some r →
  st !! r = Some s →
  new_duration < duration s →
  process_timerange seg_index new_duration (Other repr) extend st
  = (Raise (ValueError repr), st).
Proof.
  intros Hpos Hs Hlt. rewrite (run_enter _ _ _ _ _ r s Hpos Hs).
  rewrite (bind_read _ _ _ _ _ Hs).
  by destruct (Z.ltb_spec new_duration (duration s)); [|lia].
Qed.

Lemma unsupported_shrink_mode_abutting :
  py_position (length abutting) 0 = Some 0%nat
  ∧ abutting !! 0%nat = Some (segment_at 0 10)
  ∧ 4 < duration (segment_at 0 10)
  ∧ process_timerange 0 4 (Other "cut_middle") [] abutting
    = (Raise (ValueError "cut_middle"), abutting).
Proof.
  split; [reflexivity|]. split; [reflexivity|]. split; [reflexivity|].
  apply (unsupported_shrink_mode abutting 0 4 "cut_middle" [] 0 (segment_at 0 10));
    reflexivity.
Defined.

Lemma run_extend_loop_app (st : segment_list) seg_index s delta pe ns
    (pre : list Extend_mode.t) rest :
  0 ≤ seg_index < Z.of_nat (length st) →
  st !! Z.to_nat seg_index = Some s →
  extend_loop (Z.to_nat seg_index) seg_index delta pe ns ((Member <$> pre) ++ rest) st
  = match find (Rules.succeeds_when s delta pe ns) pre with
    | Some m => (Ok true, Rules.effect_on_success s (Z.to_nat seg_index) delta ns st m)
    | None => extend_loop (Z.to_nat seg_index) seg_index delta pe ns rest st
    end.
Proof.
  intros Hvalid Hseg. induction pre as [|m pre IH]; [done|].
  cbn [fmap list_fmap app extend_loop find].
  rewrite bind_run, (run_try_extend st seg_index s Hvalid Hseg).
  by destruct (Rules.succeeds_when s delta pe ns m).
Qed.

(** X4.  In the extend regime a value of [extend] that is not a member of
    [Extend_mode] matters only if the loop reaches it: when an earlier
    listed policy succeeds the call returns with that policy's effect,
    whatever follows in the list; when all earlier ones fail the call
    raises [ValueError] naming the value, with no segment changed and the
    rest of the list not tried. *)
Theorem unsupported_extend_mode (st : segment_list) seg_index new_duration s shrink
    (pre : list Extend_mode.t) repr rest :
  0 ≤ seg_index < Z.of_nat (length st) →
  st !! Z.to_nat seg_index = Some s →
  duration s < new_duration →
  match find (Rules.succeeds_when s (new_duration - duration s)
                (Rules.prev_end st (Z.to_nat seg_index))
                (Rules.next_start st (Z.to_nat seg_index))) pre with
  | Some m =>
      process_timerange seg_index new_duration shrink ((Member <$> pre) ++ rest) st
      = (Ok tt, Rules.effect_on_success s (Z.to_nat seg_index) (new_duration - duration s)
                  (Rules.next_start st (Z.to_nat seg_index)) st m)
  | None =>
      process_timerange seg_index new_duration shrink
        ((Member <$> pre) ++ Other repr :: rest) st
      = (Raise (ValueError repr), st)
  end.
Proof.
  intros Hvalid Hseg Hlonger.
  destruct (find _ pre) as [m|] eqn:Hfind.
  - rewrite (run_extend st seg_index new_duration s Hvalid Hseg Hlonger).
    by rewrite (run_extend_loop_app st seg_index s _ _ _ pre rest Hvalid Hseg), Hfind.
  - rewrite (run_extend st seg_index new_duration s Hvalid Hseg Hlonger).
    by rewrite (run_extend_loop_app st seg_index s _ _ _ pre _ Hvalid Hseg), Hfind.
Qed.

Lemma unsupported_extend_mode_abutting :
  0 ≤ 1 < Z.of_nat (length abutting)
  ∧ abutting !! Z.to_nat 1 = Some (segment_at 10 10)
  ∧ duration (segment_at 10 10) < 20
  ∧ process_timerange 1 20 (Member Shrink_mode.cut_tail)
      ((Member <$> [Extend_mode.extend_head; Extend_mode.extend_tail])
       ++ Other "stretch" :: [Member Extend_mode.push_tail]) abutting
    = (Raise (ValueError "stretch"), abutting).
Proof.
  split; [simpl; lia|]. split; [reflexivity|]. split; [reflexivity|].
  exact (unsupported_extend_mode abutting 1 20 (segment_at 10 10) (Member Shrink_mode.cut_tail)
           [Extend_mode.extend_head; Extend_mode.extend_tail] "stretch"
           [Member Extend_mode.push_tail] ltac:(simpl; lia) eq_refl eq_refl).
Defined.

(** ** Frames *)

#[local] Instance same_payload_preorder : PreOrder Timeline.same_payload.
Proof.
  split; [by intros st|].
  intros st1 st2 st3 H12 H23. unfold Timeline.same_payload in *. congruence.
Qed.

Lemma keeps_payload_assign r g :
  (∀ s, Timeline.payload (g s) = Timeline.payload s) →
  keeps Timeline.same_payload (assign r g).
Proof.
  intros Hg st. unfold Timeline.same_payload. simpl.
  rewrite (list_fmap_alter Timeline.payload g id); [|by apply Forall_true].
  by rewrite list_alter_id.
Qed.

Ltac payload_step :=
  lazymatch goal with
  | |- keeps _ (_ ≫= _) => apply keeps_bind; [apply _| |intros ?]
  | |- keeps _ (if ?c then _ else _) => destruct c
  | |- keeps _ (for_range _ _ _) => apply keeps_for_each; [apply _|intros ?]
  | |- keeps _ (assign _ _) => by apply keeps_payload_assign
  | |- keeps _ (getitem _) => apply keeps_readonly; [apply _|apply readonly_getitem]
  | |- keeps _ (read _ _) => apply keeps_readonly; [apply _|apply readonly_read]
  | |- keeps _ _ => by intros ?
  end.

Lemma keeps_payload_extend_loop seg i delta pe ns extend :
  keeps Timeline.same_payload (extend_loop seg i delta pe ns extend).
Proof.
  induction extend as [|mode rest IH]; simpl; [by intros ?|].
  apply keeps_bind; [apply _| |intros []; [by intros ?|apply IH]].
  destruct mode as [[]|repr]; simpl; repeat payload_step.
Qed.

Lemma keeps_payload_process_timerange seg_index new_duration shrink extend :
  keeps Timeline.same_payload (process_timerange seg_index new_duration shrink extend).
Proof.
  unfold process_timerange.
  apply keeps_bind; [apply _|payload_step|intros seg].
  apply keeps_bind; [apply _|payload_step|intros d].
  destruct (new_duration <? d).
  { destruct shrink as [[]|repr]; repeat payload_step. }
  destruct (d <? new_duration); [|by intros ?].
  apply keeps_bind; [apply _|repeat payload_step|intros pe].
  apply keeps_bind; [apply _|by intros ?|intros n].
  apply keeps_bind; [apply _|repeat payload_step|intros ns].
  apply keeps_bind; [apply _|apply keeps_payload_extend_loop|intros flag].
  repeat payload_step.
Qed.

(** X5.  Whatever the arguments and whether the call returns or raises,
    the track has the same number of segments afterwards, and every segment
    has the [raw_data] and the [material_id] it had: the call writes target
    timeranges only. *)
Theorem process_timerange_keeps_payload seg_index new_duration shrink extend
    (st : segment_list) :
  length (process_timerange seg_index new_duration shrink extend st).2 = length st
  ∧ Imported_segment.raw_data
      <$> (process_timerange seg_index new_duration shrink extend st).2
    = Imported_segment.raw_data <$> st
  ∧ material_id <$> (process_timerange seg_index new_duration shrink extend st).2
    = material_id <$> st.
Proof.
  pose proof (keeps_payload_process_timerange seg_index new_duration shrink extend st) as H.
  unfold Timeline.same_payload in H.
  set (st' := (process_timerange seg_index new_duration shrink extend st).2) in *.
  split; [|split].
  - by rewrite <- (length_fmap Timeline.payload st'), H, length_fmap.
  - apply (f_equal (fmap (λ p, p.1.1))) in H.
    by rewrite <- !list_fmap_compose in H.
  - apply (f_equal (fmap (λ p, p.1.2))) in H.
    by rewrite <- !list_fmap_compose in H.
Qed.

#[local] Instance same_prefix_preorder r : PreOrder (Timeline.same_prefix r).
Proof.
  split; [by intros st|].
  intros st1 st2 st3 [Hl12 H12] [Hl23 H23]. split; congruence.
Qed.

Lemma keeps_prefix_assign r r' g :
  (r ≤ r')%nat → keeps (Timeline.same_prefix r) (assign r' g).
Proof.
  intros Hr st. split; simpl; [apply length_alter|by apply take_alter_ge].
Qed.

(** A subscript with a non-negative index yields that position. *)
Lemma keeps_getitem_bind {B} R `{!PreOrder R} j (f : nat → M B) :
  (0 ≤ j → keeps R (f (Z.to_nat j))) → (j < 0 → ∀ r, keeps R (f r)) →
  keeps R (getitem j ≫= f).
Proof.
  intros Hpos Hneg st. rewrite bind_run. unfold getitem, py_position.
  destruct (Z.leb_spec 0 j).
  - destruct (j <? _); [by apply Hpos|done].
  - destruct (_ <=? _); [by apply Hneg|done].
Qed.

Lemma keeps_for_each_in R `{!PreOrder R} l body :
  (∀ i, i ∈ l → keeps R (body i)) → keeps R (for_each l body).
Proof.
  induction l as [|i l IH]; intros Hb; [by intros st|].
  simpl. apply keeps_bind; [done|apply Hb; left|intros _].
  apply IH. intros j Hj. apply Hb. by right.
Qed.

Lemma keeps_prefix_shift_loop r seg_index n g :
  0 ≤ seg_index → r = Z.to_nat seg_index →
  keeps (Timeline.same_prefix r)
    (for_range (seg_index + 1) n (λ i, r' ← getitem i; s ← read r' start; assign r' (g s))).
Proof.
  intros Hi ->. apply keeps_for_each_in; [apply _|].
  intros j [Hj _]%elem_of_seqZ.
  apply keeps_getitem_bind; [apply _| |lia]. intros _.
  apply keeps_bind; [apply _|apply keeps_readonly; [apply _|apply readonly_read]|intros s].
  apply keeps_prefix_assign. lia.
Qed.

Ltac prefix_step :=
  lazymatch goal with
  | |- keeps _ (for_range _ _ _) => by apply keeps_prefix_shift_loop
  | |- keeps _ (_ ≫= _) => apply keeps_bind; [apply _| |intros ?]
  | |- keeps _ (if ?c then _ else _) => destruct c
  | |- keeps _ (assign _ _) => by apply keeps_prefix_assign
  | |- keeps _ (getitem _) => apply keeps_readonly; [apply _|apply readonly_getitem]
  | |- keeps _ (read _ _) => apply keeps_readonly; [apply _|apply readonly_read]
  | |- keeps _ _ => by intros ?
  end.

Lemma keeps_prefix_extend_loop r seg_index delta pe ns extend :
  0 ≤ seg_index → r = Z.to_nat seg_index →
  keeps (Timeline.same_prefix r) (extend_loop r seg_index delta pe ns extend).
Proof.
  intros Hi Hr. induction extend as [|mode rest IH]; simpl; [by intros ?|].
  apply keeps_bind; [apply _| |intros []; [by intros ?|apply IH]].
  destruct mode as [[]|repr]; simpl; repeat prefix_step.
Qed.

(** X6.  With a non-negative index, the segments stored before the
    addressed one are never written: after the call, returning or raising,
    under any policy arguments, the first [seg_index] segments are what
    they were. *)
Theorem earlier_segments_untouched seg_index new_duration shrink extend (st : segment_list) :
  0 ≤ seg_index →
  take (Z.to_nat seg_index) (process_timerange seg_index new_duration shrink extend st).2
  = take (Z.to_nat seg_index) st.
Proof.
  intros Hi.
  cut (keeps (Timeline.same_prefix (Z.to_nat seg_index))
         (process_timerange seg_index new_duration shrink extend)).
  { intros H. apply (H st). }
  unfold process_timerange.
  apply keeps_getitem_bind; [apply _| |lia]. intros _.
  set (r := Z.to_nat seg_index).
  apply keeps_bind; [apply _|prefix_step|intros d].
  destruct (new_duration <? d).
  { destruct shrink as [[]|repr]; repeat prefix_step. }
  destruct (d <? new_duration); [|by intros ?].
  apply keeps_bind; [apply _|repeat prefix_step|intros pe].
  apply keeps_bind; [apply _|by intros ?|intros n].
  apply keeps_bind; [apply _|repeat prefix_step|intros ns].
  apply keeps_bind; [apply _|by apply keeps_prefix_extend_loop|intros flag].
  repeat prefix_step.
Qed.

Lemma earlier_segments_untouched_abutting :
  0 ≤ 1
  ∧ take (Z.to_nat 1)
      (process_timerange 1 25 (Member Shrink_mode.cut_tail)
         [Member Extend_mode.push_tail] abutting).2
    = take (Z.to_nat 1) abutting.
Proof.
  split; [lia|].
  apply (earlier_segments_untouched 1 25 (Member Shrink_mode.cut_tail)
           [Member Extend_mode.push_tail] abutting). lia.
Defined.

(** X7.  A negative index counts from the end, as for a Python list: in
    the shrink and no-op regimes, under [cut_head], [cut_tail] and [shrink],
    the index [i - len] does exactly what the index [i] does. *)
Theorem negative_index_addresses_from_end (st : segment_list) seg_index new_duration s m
    extend :
  0 ≤ seg_index < Z.of_nat (length st) →
  st !! Z.to_nat seg_index = Some s →
  new_duration ≤ duration s →
  m ≠ Shrink_mode.cut_tail_align →
  process_timerange (seg_index - Z.of_nat (length st)) new_duration (Member m) extend st
  = process_timerange seg_index new_duration (Member m) extend st.
Proof.
  intros Hvalid Hseg Hle Hm.
  rewrite (run_enter st (seg_index - _) _ _ _ _ s (py_position_negative _ _ Hvalid) Hseg).
  rewrite (run_enter st seg_index _ _ _ _ s (py_position_valid _ _ Hvalid) Hseg).
  rewrite !(bind_read _ _ _ _ _ Hseg).
  destruct (Z.ltb_spec new_duration (duration s)).
  - by destruct m.
  - by destruct (Z.ltb_spec (duration s) new_duration); [lia|].
Qed.

Lemma negative_index_addresses_from_end_abutting :
  0 ≤ 2 < Z.of_nat (length abutting)
  ∧ abutting !! Z.to_nat 2 = Some (segment_at 20 10)
  ∧ 4 ≤ duration (segment_at 20 10)
  ∧ Shrink_mode.shrink ≠ Shrink_mode.cut_tail_align
  ∧ process_timerange (2 - Z.of_nat (length abutting)) 4 (Member Shrink_mode.shrink) [] abutting
    = process_timerange 2 4 (Member Shrink_mode.shrink) [] abutting.
Proof.
  split; [simpl; lia|]. split; [reflexivity|]. split; [compute_done|]. split; [done|].
  apply (negative_index_addresses_from_end abutting 2 4 (segment_at 20 10)
           Shrink_mode.shrink []); [simpl; lia|reflexivity|compute_done|done].
Defined.

(** ** Overlaps *)

Lemma lookup_insert_edited (st : segment_list) r s s' j :
  st !! r = Some s →
  <[r:=s']> st !! j = Timeline.edited r s' 0 j <$> st !! j.
Proof.
  intros Hs. unfold Timeline.edited.
  destruct (decide (j < r)%nat); [|destruct (decide (j = r)) as [->|]].
  - rewrite list_lookup_insert_ne by lia. by destruct (st !! j).
  - rewrite list_lookup_insert_eq by (by eapply lookup_lt_Some). by rewrite Hs.
  - rewrite list_lookup_insert_ne by lia.
    destruct (st !! j) as [x|]; [|done]. simpl.
    by rewrite Z.add_0_r, set_start_same.
Qed.

Lemma lookup_shift_edited (st : segment_list) r s s' k j :
  st !! r = Some s →
  Rules.shift_following r k (<[r:=s']> st) !! j = Timeline.edited r s' k j <$> st !! j.
Proof.
  intros Hs. unfold Timeline.edited.
  destruct (decide (j < r)%nat); [|destruct (decide (j = r)) as [->|]].
  - rewrite shift_following_lookup_le by lia.
    rewrite list_lookup_insert_ne by lia. by destruct (st !! j).
  - rewrite shift_following_lookup_le by lia.
    rewrite list_lookup_insert_eq by (by eapply lookup_lt_Some). by rewrite Hs.
  - rewrite shift_following_lookup_gt by lia.
    by rewrite list_lookup_insert_ne by lia.
Qed.

Lemma end_set_start v (x : Imported_segment.t) : end_ (set_start v x) = v + duration x.
Proof. done. Qed.

(** An edit keeps the list free of overlaps when the stored segment starts
    no earlier than its predecessor ends and ends no later than the moved
    start of its successor. *)
Lemma edited_non_overlapping (st st' : segment_list) r s s' k :
  st !! r = Some s →
  (∀ j, st' !! j = Timeline.edited r s' k j <$> st !! j) →
  (∀ r' a, r = S r' → st !! r' = Some a → end_ a ≤ start s') →
  (∀ b, st !! S r = Some b → end_ s' ≤ start b + k) →
  Timeline.non_overlapping st → Timeline.non_overlapping st'.
Proof.
  intros Hs Hst' Hprev Hnext Hno j a' b'. rewrite !Hst'.
  destruct (st !! j) as [a|] eqn:Ha; [|done].
  destruct (st !! S j) as [b|] eqn:Hb; [|done].
  intros [= <-] [= <-]. specialize (Hno j a b Ha Hb).
  unfold Timeline.edited.
  destruct (decide (j < r)%nat), (decide (S j < r)%nat); try lia.
  - destruct (decide (S j = r)) as [Hr|]; [|lia].
    by eapply Hprev.
  - destruct (decide (j = r)) as [Hjr|], (decide (S j = r)); try lia.
    + subst j. exact (Hnext b Hb).
    + rewrite end_set_start.
      unfold end_, Timerange.end_, start, duration in *. simpl. lia.
Qed.

Lemma prev_end_lookup (st : segment_list) r' a :
  st !! r' = Some a → Rules.prev_end st (S r') = end_ a.
Proof. intros Ha. simpl. by rewrite Ha. Qed.

Lemma next_start_lookup (st : segment_list) r b :
  st !! S r = Some b → Rules.next_start st r = start b.
Proof. intros Hb. unfold Rules.next_start. by rewrite Hb. Qed.

(** X8.  On a track without overlaps, a call that returns leaves the track
    without overlaps, for every shrink policy except [cut_head] and every
    list of extend policies. *)
Theorem no_overlap_is_kept (st st' : segment_list) seg_index new_duration s m
    (modes : list Extend_mode.t) :
  0 ≤ seg_index < Z.of_nat (length st) →
  st !! Z.to_nat seg_index = Some s →
  m ≠ Shrink_mode.cut_head →
  Timeline.non_overlapping st →
  process_timerange seg_index new_duration (Member m) (Member <$> modes) st = (Ok tt, st') →
  Timeline.non_overlapping st'.
Proof.
  intros Hvalid Hseg Hm Hno. set (r := Z.to_nat seg_index) in *.
  assert (Hsucc : ∀ b, st !! S r = Some b → end_ s ≤ start b) by (intros b; by apply Hno).
  assert (Hpred : ∀ r' a, r = S r' → st !! r' = Some a → end_ a ≤ start s).
  { intros r' a Hr Ha. apply (Hno r' a s Ha). by rewrite <- Hr. }
  destruct (Z.lt_trichotomy new_duration (duration s)) as [Hlt|[->|Hgt]].
  - destruct m; [done| | |].
    + rewrite (run_cut_tail st seg_index new_duration s _ Hvalid Hseg Hlt). intros [= <-].
      eapply (edited_non_overlapping st _ r s (set_duration new_duration s) 0 Hseg);
        [intros j; by eapply lookup_insert_edited| | |done].
      * intros r' a Hr Ha. by apply (Hpred r' a).
      * intros b Hb. specialize (Hsucc b Hb).
        unfold end_, Timerange.end_, start, duration in *. simpl. lia.
    + rewrite (run_cut_tail_align st seg_index new_duration s _ Hvalid Hseg Hlt).
      intros [= <-].
      eapply (edited_non_overlapping st _ r s (set_duration new_duration s)
               (- (duration s - new_duration)) Hseg);
        [intros j; by eapply lookup_shift_edited| | |done].
      * intros r' a Hr Ha. by apply (Hpred r' a).
      * intros b Hb. specialize (Hsucc b Hb).
        unfold end_, Timerange.end_, start, duration in *. simpl. lia.
    + rewrite (run_shrink st seg_index new_duration s _ Hvalid Hseg Hlt). intros [= <-].
      pose proof (Z.div_pos (duration s - new_duration) 2 ltac:(lia) ltac:(lia)) as Hhalf.
      assert (Hhalf' : (duration s - new_duration) `div` 2 ≤ duration s - new_duration)
        by (apply Z.div_le_upper_bound; lia).
      eapply (edited_non_overlapping st _ r s _ 0 Hseg);
        [intros j; by eapply lookup_insert_edited| | |done].
      * intros r' a Hr Ha. specialize (Hpred r' a Hr Ha).
        unfold end_, Timerange.end_, start, duration in *. simpl. lia.
      * intros b Hb. specialize (Hsucc b Hb).
        unfold end_, Timerange.end_, start, duration in *. simpl. lia.
  - rewrite (run_enter st seg_index _ _ _ r s (py_position_valid _ _ Hvalid) Hseg).
    rewrite (bind_read _ _ _ _ _ Hseg), !Z.ltb_irrefl.
    by intros [= <-].
  - rewrite (run_extend st seg_index new_duration s Hvalid Hseg Hgt).
    rewrite (run_extend_loop st seg_index s Hvalid Hseg). fold r.
    destruct (find _ modes) as [mode|] eqn:Hfind; [|done]. intros [= <-].
    apply find_some in Hfind as [_ Hok].
    destruct mode; cbn [Rules.succeeds_when Rules.effect_on_success] in *.
    + apply Z.leb_le in Hok.
      eapply (edited_non_overlapping st _ r s _ 0 Hseg);
        [intros j; by eapply lookup_insert_edited| | |done].
      * intros r' a Hr Ha. rewrite Hr, (prev_end_lookup _ _ _ Ha) in Hok. done.
      * intros b Hb. specialize (Hsucc b Hb).
        unfold end_, Timerange.end_, start, duration in *. simpl. lia.
    + apply Z.leb_le in Hok.
      eapply (edited_non_overlapping st _ r s _ 0 Hseg);
        [intros j; by eapply lookup_insert_edited| | |done].
      * intros r' a Hr Ha. by apply (Hpred r' a).
      * intros b Hb. rewrite (next_start_lookup _ _ _ Hb) in Hok.
        unfold end_, Timerange.end_, start, duration in *. simpl. lia.
    + destruct (Z.ltb_spec (Rules.next_start st r) (end_ s + (new_duration - duration s))).
      * eapply (edited_non_overlapping st _ r s _ _ Hseg);
          [intros j; by eapply lookup_shift_edited| | |done].
        -- intros r' a Hr Ha. by apply (Hpred r' a).
        -- intros b Hb. rewrite (next_start_lookup _ _ _ Hb).
           unfold end_, Timerange.end_, start, duration in *. simpl. lia.
      * eapply (edited_non_overlapping st _ r s _ 0 Hseg);
          [intros j; by eapply lookup_insert_edited| | |done].
        -- intros r' a Hr Ha. by apply (Hpred r' a).
        -- intros b Hb. rewrite (next_start_lookup _ _ _ Hb) in *.
           unfold end_, Timerange.end_, start, duration in *. simpl. lia.
Qed.

Lemma spaced_non_overlapping : Timeline.non_overlapping spaced.
Proof.
  intros [|[|[|j]]] a b Ha Hb; try done; injection Ha as <-; injection Hb as <-;
    compute_done.
Defined.

Lemma no_overlap_is_kept_spaced :
  0 ≤ 1 < Z.of_nat (length spaced)
  ∧ spaced !! Z.to_nat 1 = Some (segment_at 15 10)
  ∧ Shrink_mode.cut_tail ≠ Shrink_mode.cut_head
  ∧ Timeline.non_overlapping spaced
  ∧ process_timerange 1 25 (Member Shrink_mode.cut_tail)
      (Member <$> [Extend_mode.extend_tail; Extend_mode.push_tail]) spaced
    = (Ok tt, [segment_at 0 5; set_duration 25 (segment_at 15 10);
               set_start 40 (segment_at 30 10)])
  ∧ Timeline.non_overlapping
      [segment_at 0 5; set_duration 25 (segment_at 15 10); set_start 40 (segment_at 30 10)].
Proof.
  split; [simpl; lia|]. split; [reflexivity|]. split; [done|].
  split; [exact spaced_non_overlapping|]. split; [reflexivity|].
  apply (no_overlap_is_kept spaced _ 1 25 (segment_at 15 10) Shrink_mode.cut_tail
           [Extend_mode.extend_tail; Extend_mode.push_tail]);
    [simpl; lia|reflexivity|done|exact spaced_non_overlapping|reflexivity].
Defined.

(** X9.  [cut_head] moves the whole segment later by [delta] without
    shortening it, so on return the segment overlaps any successor that
    started less than [delta] after its end; an abutting successor is
    always overlapped. *)
Theorem cut_head_overlaps_successor (st : segment_list) seg_index new_duration s b extend :
  0 ≤ seg_index < Z.of_nat (length st) →
  st !! Z.to_nat seg_index = Some s →
  st !! S (Z.to_nat seg_index) = Some b →
  new_duration < duration s →
  start b < end_ s + (duration s - new_duration) →
  ∃ st' s',
    process_timerange seg_index new_duration (Member Shrink_mode.cut_head) extend st
      = (Ok tt, st')
    ∧ st' !! Z.to_nat seg_index = Some s'
    ∧ st' !! S (Z.to_nat seg_index) = Some b
    ∧ start b < end_ s'
    ∧ ¬ Timeline.non_overlapping st'.
Proof.
  intros Hvalid Hseg Hb Hlt Hclose.
  assert (Hr : (Z.to_nat seg_index < length st)%nat) by (by eapply lookup_lt_Some).
  eexists _, _. split; [by apply run_cut_head|].
  assert (Hend : start b
                 < end_ (set_start (start s + (duration s - new_duration)) s)).
  { rewrite end_set_start. unfold end_, Timerange.end_, start, duration in *. lia. }
  split; [by apply list_lookup_insert_eq|].
  split; [by rewrite list_lookup_insert_ne by lia|].
  split; [done|].
  intros Hno.
  specialize (Hno (Z.to_nat seg_index) _ b
                (list_lookup_insert_eq _ _ _ Hr)).
  rewrite list_lookup_insert_ne in Hno by lia. specialize (Hno Hb). lia.
Qed.

Lemma cut_head_overlaps_successor_abutting :
  0 ≤ 0 < Z.of_nat (length abutting)
  ∧ abutting !! Z.to_nat 0 = Some (segment_at 0 10)
  ∧ abutting !! S (Z.to_nat 0) = Some (segment_at 10 10)
  ∧ 4 < duration (segment_at 0 10)
  ∧ start (segment_at 10 10) < end_ (segment_at 0 10) + (duration (segment_at 0 10) - 4)
  ∧ ∃ st' s',
    process_timerange 0 4 (Member Shrink_mode.cut_head) [] abutting = (Ok tt, st')
    ∧ st' !! Z.to_nat 0 = Some s'
    ∧ st' !! S (Z.to_nat 0) = Some (segment_at 10 10)
    ∧ start (segment_at 10 10) < end_ s'
    ∧ ¬ Timeline.non_overlapping st'.
Proof.
  split; [simpl; lia|]. split; [reflexivity|]. split; [reflexivity|].
  split; [reflexivity|]. split; [reflexivity|].
  apply (cut_head_overlaps_successor abutting 0 4 (segment_at 0 10) (segment_at 10 10) []);
    [simpl; lia|reflexivity..].
Defined.

(** X10.  Once a call has returned under a shrink policy other than
    [cut_head] and with no [extend_head] among the extend policies, the
    addressed segment has the requested duration, so asking again for the
    same duration, under any policies, changes nothing. *)
Theorem repeated_call_is_noop (st st' : segment_list) seg_index new_duration s m
    (modes : list Extend_mode.t) shrink' extend' :
  0 ≤ seg_index < Z.of_nat (length st) →
  st !! Z.to_nat seg_index = Some s →
  m ≠ Shrink_mode.cut_head →
  Extend_mode.extend_head ∉ modes →
  process_timerange seg_index new_duration (Member m) (Member <$> modes) st = (Ok tt, st') →
  (∃ s', st' !! Z.to_nat seg_index = Some s' ∧ duration s' = new_duration)
  ∧ process_timerange seg_index new_duration shrink' extend' st' = (Ok tt, st').
Proof.
  intros Hvalid Hseg Hm Hhead Hrun. set (r := Z.to_nat seg_index) in *.
  assert (Hr : (r < length st)%nat) by (by eapply lookup_lt_Some).
  assert (Hafter : length st' = length st
                   ∧ ∃ s', st' !! r = Some s' ∧ duration s' = new_duration).
  { destruct (Z.lt_trichotomy new_duration (duration s)) as [Hlt|[Heq|Hgt]].
    - destruct m; [done| | |].
      + rewrite (run_cut_tail st seg_index new_duration s _ Hvalid Hseg Hlt) in Hrun.
        injection Hrun as <-. split; [apply length_insert|].
        eexists. split; [by apply list_lookup_insert_eq|done].
      + rewrite (run_cut_tail_align st seg_index new_duration s _ Hvalid Hseg Hlt) in Hrun.
        injection Hrun as <-. split; [by rewrite shift_following_length, length_insert|].
        eexists. split;
          [rewrite shift_following_lookup_le by done; by apply list_lookup_insert_eq|done].
      + rewrite (run_shrink st seg_index new_duration s _ Hvalid Hseg Hlt) in Hrun.
        injection Hrun as <-. split; [apply length_insert|].
        eexists. split; [by apply list_lookup_insert_eq|done].
    - rewrite (run_enter st seg_index _ _ _ r s (py_position_valid _ _ Hvalid) Hseg) in Hrun.
      rewrite (bind_read _ _ _ _ _ Hseg), Heq, !Z.ltb_irrefl in Hrun.
      injection Hrun as <-. split; [done|]. by exists s.
    - rewrite (run_extend st seg_index new_duration s Hvalid Hseg Hgt) in Hrun.
      rewrite (run_extend_loop st seg_index s Hvalid Hseg) in Hrun. fold r in Hrun.
      destruct (find _ modes) as [mode|] eqn:Hfind; [|done]. injection Hrun as <-.
      apply find_some in Hfind as [Hin _]. apply list_elem_of_In in Hin.
      destruct mode; cbn [Rules.effect_on_success].
      + done.
      + split; [apply length_insert|].
        eexists. split; [by apply list_lookup_insert_eq|]. unfold duration; simpl; lia.
      + destruct (_ <? _).
        * split; [by rewrite shift_following_length, length_insert|].
          eexists. split.
          { rewrite shift_following_lookup_le by done. by apply list_lookup_insert_eq. }
          unfold duration; simpl; lia.
        * split; [apply length_insert|].
          eexists. split; [by apply list_lookup_insert_eq|]. unfold duration; simpl; lia. }
  destruct Hafter as (Hlen & s' & Hs' & Hdur). split; [by exists s'|].
  rewrite (run_enter st' seg_index _ _ _ r s'); [|rewrite Hlen; by apply py_position_valid|done].
  by rewrite (bind_read _ _ _ _ _ Hs'), Hdur, !Z.ltb_irrefl.
Qed.

Lemma repeated_call_is_noop_abutting :
  0 ≤ 0 < Z.of_nat (length abutting)
  ∧ abutting !! Z.to_nat 0 = Some (segment_at 0 10)
  ∧ Shrink_mode.shrink ≠ Shrink_mode.cut_head
  ∧ (Extend_mode.extend_head ∉ [Extend_mode.push_tail])
  ∧ process_timerange 0 17 (Member Shrink_mode.shrink) (Member <$> [Extend_mode.push_tail])
      abutting
    = (Ok tt, [set_duration 17 (segment_at 0 10); set_start 17 (segment_at 10 10);
               set_start 27 (segment_at 20 10)])
  ∧ process_timerange 0 17 (Member Shrink_mode.cut_head) [Member Extend_mode.extend_head]
      [set_duration 17 (segment_at 0 10); set_start 17 (segment_at 10 10);
       set_start 27 (segment_at 20 10)]
    = (Ok tt, [set_duration 17 (segment_at 0 10); set_start 17 (segment_at 10 10);
               set_start 27 (segment_at 20 10)]).
Proof.
  split; [simpl; lia|]. split; [reflexivity|]. split; [done|].
  split; [by intros [[=]|[]%elem_of_nil]%elem_of_cons|]. split; [reflexivity|].
  apply (repeated_call_is_noop abutting _ 0 17 (segment_at 0 10) Shrink_mode.shrink
           [Extend_mode.push_tail] (Member Shrink_mode.cut_head)
           [Member Extend_mode.extend_head]);
    [simpl; lia|reflexivity|done|by intros [[=]|[]%elem_of_nil]%elem_of_cons|reflexivity].
Defined.

(** * Further properties of loading and re-emitting *)

Lemma foldl_max_spec x l :
  x ≤ foldl Z.max x l
  ∧ (∀ y, y ∈ l → y ≤ foldl Z.max x l)
  ∧ foldl Z.max x l ∈ x :: l.
Proof.
  revert x. induction l as [|z l IH]; intros x; simpl.
  - split; [lia|]. split; [by intros y ?%elem_of_nil|left].
  - destruct (IH (x `max` z)) as (Hge & Hall & Hin).
    split; [lia|]. split.
    + intros y [->|Hy]%elem_of_cons; [lia|by apply Hall].
    + apply elem_of_cons in Hin as [Heq|Hin]; [|by do 2 right].
      rewrite Heq. destruct (Z.max_spec x z) as [[_ ->]|[_ ->]]; [right; left|left].
Qed.

Lemma py_max_spec l v :
  py_max l = Ok v → v ∈ l ∧ ∀ y, y ∈ l → y ≤ v.
Proof.
  destruct l as [|x l]; [done|]. intros [= <-].
  destruct (foldl_max_spec x l) as (Hge & Hall & Hin).
  split; [done|]. intros y [->|Hy]%elem_of_cons; auto.
Qed.

Section more_tracks.

Context `{Env}.

Lemma render_index_spec json_data ri :
  (segs ← subscript json_data "segments" ≫= py_iter;
   mapM (λ seg, subscript seg "render_index" ≫= py_int) segs ≫= py_max) = Ok ri →
  ∃ segs ris,
    subscript json_data "segments" = Ok (JList segs)
    ∧ Forall2 (λ seg r, subscript seg "render_index" ≫= py_int = Ok r) segs ris
    ∧ ri ∈ ris ∧ ∀ r, r ∈ ris → r ≤ ri.
Proof.
  intros Hri. destruct (render_index_Ok _ _ Hri) as (seg & segs & Hsegs).
  apply outcome_bind_Ok in Hri as (l & Hl & (ris & Hris & Hmax)%outcome_bind_Ok).
  rewrite Hsegs in Hl. injection Hl as <-.
  apply mapM_Ok_Forall2 in Hris. apply py_max_spec in Hmax as [Hin Hall].
  by exists (seg :: segs), ris.
Qed.

(** X11.  The [render_index] of a constructed track, static or imported,
    is the largest of its segments' render indices: it is the [int] of the
    [render_index] field of one of the segment descriptors and no segment
    has a larger one. *)
Theorem render_index_is_maximum (json_data : json) :
  (∀ t, Static_track.init json_data = Ok t →
     ∃ segs ris,
       subscript json_data "segments" = Ok (JList segs)
       ∧ Forall2 (λ seg r, subscript seg "render_index" ≫= py_int = Ok r) segs ris
       ∧ Static_track.render_index t ∈ ris
       ∧ ∀ r, r ∈ ris → r ≤ Static_track.render_index t)
  ∧ (∀ t, Imported_track.init json_data = Ok t →
     ∃ segs ris,
       subscript json_data "segments" = Ok (JList segs)
       ∧ Forall2 (λ seg r, subscript seg "render_index" ≫= py_int = Ok r) segs ris
       ∧ Imported_track.render_index t ∈ ris
       ∧ ∀ r, r ∈ ris → r ≤ Imported_track.render_index t).
Proof.
  split; intros t Hinit.
  - unfold Static_track.init in Hinit.
    apply outcome_bind_Ok in Hinit as (ty & _ & Hinit).
    apply outcome_bind_Ok in Hinit as (nm & _ & Hinit).
    apply outcome_bind_Ok in Hinit as (id & _ & Hinit).
    apply outcome_bind_Ok in Hinit as (ri & Hri & [= <-]).
    by apply render_index_spec.
  - unfold Imported_track.init in Hinit.
    apply outcome_bind_Ok in Hinit as (ty & _ & Hinit).
    apply outcome_bind_Ok in Hinit as (nm & _ & Hinit).
    apply outcome_bind_Ok in Hinit as (id & _ & Hinit).
    apply outcome_bind_Ok in Hinit as (ri & Hri & Hinit).
    apply outcome_bind_Ok in Hinit as (l & _ & Hinit).
    apply outcome_bind_Ok in Hinit as (sl & _ & [= <-]).
    by apply render_index_spec.
Qed.

End more_tracks.

Lemma render_index_is_maximum_sample :
  ∃ t segs ris,
    @Imported_track.init sample_env mixed_descriptor = Ok t
    ∧ subscript mixed_descriptor "segments" = Ok (JList segs)
    ∧ Forall2 (λ seg r, subscript seg "render_index" ≫= @py_int sample_env = Ok r) segs ris
    ∧ Imported_track.render_index t ∈ ris
    ∧ ∀ r, r ∈ ris → r ≤ Imported_track.render_index t.
Proof.
  destruct (@Imported_track.init sample_env mixed_descriptor) as [t|e] eqn:Hinit;
    [|vm_compute in Hinit; discriminate Hinit].
  destruct (proj2 (@render_index_is_maximum sample_env mixed_descriptor) t Hinit)
    as (segs & ris & Hsegs & Hris & Hin & Hmax).
  by exists t, segs, ris.
Defined.

(** The render indices 3, 7 and 5 give the track render index 7. *)
Example mixed_descriptor_render_index :
  ∃ t, @Imported_track.init sample_env mixed_descriptor = Ok t
       ∧ Imported_track.render_index t = 7.
Proof. eexists. split; [vm_compute; reflexivity|reflexivity]. Qed.

Lemma export_attr_lookup_other sg k :
  k ∉ DATA_ATTRS → export_attr_to_json sg !! k = None.
Proof.
  intros Hk. unfold export_attr_to_json.
  rewrite !lookup_insert_ne; [apply lookup_empty|..];
    intros <-; apply Hk; unfold DATA_ATTRS; set_solver.
Qed.

(** X12.  [Imported_segment.export_json] on a segment whose payload is a
    dict returns that dict with the three typed keys set from the segment's
    current fields and every other key as it is in the payload; loading the
    result again gives the same material id and timeranges.  A payload that
    is not a dict cannot be updated. *)
Theorem segment_export_merges_typed_fields (sg : Imported_segment.t) :
  (∀ m, Imported_segment.raw_data sg = JObj m →
     ∃ out,
       Imported_segment.export_json sg = Ok out
       ∧ subscript out "material_id" = Ok (JStr (material_id sg))
       ∧ subscript out "source_timerange" = Ok (Timerange.export_json (source_timerange sg))
       ∧ subscript out "target_timerange" = Ok (Timerange.export_json (target_timerange sg))
       ∧ same_opaque_fields (Imported_segment.raw_data sg) out
       ∧ Imported_segment.init out
         = Ok (Imported_segment.mk out (material_id sg) (source_timerange sg)
                 (target_timerange sg)))
  ∧ ((∀ m, Imported_segment.raw_data sg ≠ JObj m) →
     Imported_segment.export_json sg = Raise TypeError).
Proof.
  split.
  - intros m Hraw. unfold Imported_segment.export_json. rewrite Hraw.
    cbn [dict_update]. eexists. split; [done|].
    assert (Hmid : (export_attr_to_json sg ∪ m) !! "material_id"%string
                   = Some (JStr (material_id sg))).
    { by apply lookup_union_Some_l. }
    assert (Hsrc : (export_attr_to_json sg ∪ m) !! "source_timerange"%string
                   = Some (Timerange.export_json (source_timerange sg))).
    { by apply lookup_union_Some_l. }
    assert (Htgt : (export_attr_to_json sg ∪ m) !! "target_timerange"%string
                   = Some (Timerange.export_json (target_timerange sg))).
    { by apply lookup_union_Some_l. }
    unfold same_opaque_fields, Imported_segment.init, assign_attr_with_json, subscript.
    rewrite Hmid, Hsrc, Htgt.
    split; [done|]. split; [done|]. split; [done|].
    split.
    + intros k Hk.
      by rewrite lookup_union_r by (by apply export_attr_lookup_other).
    + cbn [mbind outcome_bind]. by rewrite !timerange_import_export.
  - intros Hraw. unfold Imported_segment.export_json.
    destruct (Imported_segment.raw_data sg) as [| | | | | |m]; try done.
    by destruct (Hraw m).
Qed.

Lemma segment_export_merges_typed_fields_sample :
  Imported_segment.raw_data (set_duration 4 (segment_at 0 10)) = segment_descriptor 0 10
  ∧ ∃ out,
      Imported_segment.export_json (set_duration 4 (segment_at 0 10)) = Ok out
      ∧ subscript out "material_id" = Ok (JStr "material-1")
      ∧ subscript out "source_timerange" = Ok (Timerange.export_json (Timerange.mk 0 10))
      ∧ subscript out "target_timerange" = Ok (Timerange.export_json (Timerange.mk 0 4))
      ∧ same_opaque_fields (segment_descriptor 0 10) out
      ∧ Imported_segment.init out
        = Ok (Imported_segment.mk out "material-1" (Timerange.mk 0 10) (Timerange.mk 0 4)).
Proof.
  split; [reflexivity|].
  exact (proj1 (segment_export_merges_typed_fields (set_duration 4 (segment_at 0 10)))
           _ eq_refl).
Defined.

Lemma init_raw_data seg sg :
  Imported_segment.init seg = Ok sg →
  Imported_segment.raw_data sg = seg ∧ ∃ m, seg = JObj m.
Proof.
  unfold Imported_segment.init, assign_attr_with_json. intros Hinit.
  apply outcome_bind_Ok in Hinit as ([[mid src] tgt] & Hattr & [= <-]).
  apply outcome_bind_Ok in Hattr as (jmid & (m & -> & _)%subscript_Ok & _).
  split; [done|by exists m].
Qed.

Lemma segments_export (segs : list json) (sl : segment_list) :
  Forall2 (λ seg sg, Imported_segment.raw_data sg = seg ∧ ∃ m, seg = JObj m) segs sl →
  ∃ outs, mapM Imported_segment.export_json sl = Ok outs
          ∧ Forall2 (λ sg out, Imported_segment.export_json sg = Ok out) sl outs
          ∧ Forall2 same_opaque_fields segs outs.
Proof.
  induction 1 as [|seg sg segs sl [Hraw [m ->]] _ (outs & Hmap & Hall & Hsame)].
  - exists []. by repeat split; constructor.
  - destruct (proj1 (segment_export_merges_typed_fields sg) m Hraw)
      as (out & Hout & _ & _ & _ & Hopaque & _).
    exists (out :: outs). simpl. rewrite Hout. simpl. rewrite Hmap. simpl.
    split; [done|]. split; constructor; try done. by rewrite <- Hraw.
Qed.

Section edit_and_export.

Context `{Env}.

(** X13.  Load, edit, re-emit: on a constructed track, after any call of
    [process_timerange], returning or raising, [export_json] succeeds; the
    emitted dict has every key of the original descriptor other than
    [segments] at its original value, and its [segments] list holds, in
    order, the export of each segment, which agrees with the original
    segment descriptor on every key outside [__DATA_ATTRS]. *)
Theorem edit_then_export_keeps_opaque_fields (json_data : json) (t : Imported_track.t)
    seg_index new_duration shrink extend :
  Imported_track.init json_data = Ok t →
  ∃ segs out t' outs,
    subscript json_data "segments" = Ok (JList segs)
    ∧ Imported_track.export_json
        (Imported_track.run_process_timerange t seg_index new_duration shrink extend).2
      = Ok (out, t')
    ∧ (∀ k, k ≠ "segments"%string → subscript out k = subscript json_data k)
    ∧ subscript out "segments" = Ok (JList outs)
    ∧ Forall2 (λ sg o, Imported_segment.export_json sg = Ok o)
        (Imported_track.segments
           (Imported_track.run_process_timerange t seg_index new_duration shrink extend).2)
        outs
    ∧ Forall2 same_opaque_fields segs outs.
Proof.
  intros Hinit. unfold Imported_track.init in Hinit.
  apply outcome_bind_Ok in Hinit as (ty & _ & Hinit).
  apply outcome_bind_Ok in Hinit as (nm & _ & Hinit).
  apply outcome_bind_Ok in Hinit as (id & _ & Hinit).
  apply outcome_bind_Ok in Hinit as (ri & Hri & Hinit).
  apply outcome_bind_Ok in Hinit as (l & Hl & Hinit).
  apply outcome_bind_Ok in Hinit as (sl & Hsl & [= <-]).
  apply render_index_Ok in Hri as (seg & segs & Hsegs).
  rewrite Hsegs in Hl. injection Hl as <-.
  apply mapM_Ok_Forall2 in Hsl.
  unfold Imported_track.run_process_timerange. cbn [Imported_track.segments].
  pose proof (keeps_payload_process_timerange seg_index new_duration shrink extend sl)
    as Hkeep.
  destruct (process_timerange seg_index new_duration shrink extend sl) as [r sl'].
  cbn [snd] in *. cbn [Imported_track.segments Imported_track.raw_data].
  assert (Hraw : Forall2 (λ seg sg, Imported_segment.raw_data sg = seg ∧ ∃ m, seg = JObj m)
                   (seg :: segs) sl').
  { apply (f_equal (fmap (λ p, p.1.1))) in Hkeep.
    rewrite <- !list_fmap_compose in Hkeep.
    apply Forall2_same_length_lookup. split.
    - apply Forall2_length in Hsl. rewrite Hsl.
      apply (f_equal length) in Hkeep. by rewrite !length_fmap in Hkeep.
    - intros j d sg' Hd Hsg'.
      destruct (Forall2_lookup_l _ _ _ _ _ Hsl Hd) as (sg & Hsg & Hinit).
      apply init_raw_data in Hinit as [Hr Hm]. split; [|done].
      apply (f_equal (.!! j)) in Hkeep. rewrite !list_lookup_fmap, Hsg, Hsg' in Hkeep.
      simpl in Hkeep. injection Hkeep as ->. done. }
  destruct (segments_export _ _ Hraw) as (outs & Hmap & Hall & Hsame).
  apply subscript_Ok in Hsegs as (m & -> & Hm).
  unfold Imported_track.export_json. cbn [Imported_track.segments Imported_track.raw_data].
  rewrite Hmap. cbn [mbind outcome_bind mret outcome_ret dict_update].
  eexists (seg :: segs), _, _, outs. unfold subscript.
  split; [by rewrite Hm|]. split; [done|].
  split.
  { intros k Hk.
    by rewrite lookup_union_r by (by rewrite lookup_insert_ne, lookup_empty). }
  split; [|done].
  by rewrite (lookup_union_Some_l _ _ _ _ (lookup_insert_eq _ _ _)).
Qed.

End edit_and_export.

Lemma edit_then_export_keeps_opaque_fields_sample :
  ∃ t segs out t' outs,
    @Imported_track.init sample_env sample_descriptor = Ok t
    ∧ subscript sample_descriptor "segments" = Ok (JList segs)
    ∧ Imported_track.export_json
        (Imported_track.run_process_timerange t 0 4 (Member Shrink_mode.cut_tail_align) []).2
      = Ok (out, t')
    ∧ (∀ k, k ≠ "segments"%string → subscript out k = subscript sample_descriptor k)
    ∧ subscript out "segments" = Ok (JList outs)
    ∧ Forall2 (λ sg o, Imported_segment.export_json sg = Ok o)
        (Imported_track.segments
           (Imported_track.run_process_timerange t 0 4
              (Member Shrink_mode.cut_tail_align) []).2)
        outs
    ∧ Forall2 same_opaque_fields segs outs.
Proof.
  destruct (@Imported_track.init sample_env sample_descriptor) as [t|e] eqn:Hinit;
    [|vm_compute in Hinit; discriminate Hinit].
  destruct (@edit_then_export_keeps_opaque_fields sample_env sample_descriptor t 0 4
              (Member Shrink_mode.cut_tail_align) [] Hinit)
    as (segs & out & t' & outs & H1 & H2 & H3 & H4 & H5 & H6).
  by exists t, segs, out, t', outs.
Defined.

(** * Keyframes *)

Section sorting.

Context {A : Type} (key : A → Z).

Lemma insert_by_Permutation x l : insert_by key x l ≡ₚ x :: l.
Proof.
  induction l as [|y l IH]; simpl; [done|].
  destruct (key x <=? key y); [done|]. rewrite IH. apply Permutation_swap.
Qed.

Lemma insert_by_sorted x l :
  StronglySorted (le_by key) l → StronglySorted (le_by key) (insert_by key x l).
Proof.
  induction 1 as [|y l Hl IH Hy]; simpl; [by repeat constructor|].
  destruct (Z.leb_spec (key x) (key y)).
  - constructor; [by constructor|]. constructor; [done|].
    eapply Forall_impl; [done|]. intros z Hz. unfold le_by in *. lia.
  - constructor; [done|]. rewrite insert_by_Permutation.
    constructor; [unfold le_by; lia|done].
Qed.

Lemma insert_by_head x l :
  (∀ y, head l = Some y → key x ≤ key y) → insert_by key x l = x :: l.
Proof.
  destruct l as [|y l]; [done|]. intros Hy. simpl.
  by destruct (Z.leb_spec (key x) (key y)); [|specialize (Hy y eq_refl); lia].
Qed.

Lemma py_sort_by_Permutation l : py_sort_by key l ≡ₚ l.
Proof.
  induction l as [|x l IH]; [done|]. simpl.
  fold (py_sort_by key l). by rewrite insert_by_Permutation, IH.
Qed.

Lemma py_sort_by_sorted l : StronglySorted (le_by key) (py_sort_by key l).
Proof.
  induction l as [|x l IH]; [constructor|]. simpl. by apply insert_by_sorted.
Qed.

Lemma filter_all (P : A → Prop) `{!∀ y, Decision (P y)} l :
  Forall P l → filter P l = l.
Proof.
  induction 1 as [|y l Hy _ IH]; [done|].
  rewrite filter_cons. destruct (decide (P y)); [by rewrite IH|done].
Qed.

Lemma filter_none (P : A → Prop) `{!∀ y, Decision (P y)} l :
  Forall (λ y, ¬ P y) l → filter P l = [].
Proof.
  induction 1 as [|y l Hy _ IH]; [done|].
  rewrite filter_cons. by destruct (decide (P y)).
Qed.

(** Appending to a sorted list and sorting puts the new element after the
    elements whose key is not larger, and leaves the others in place. *)
Lemma py_sort_by_snoc l x :
  StronglySorted (le_by key) l →
  py_sort_by key (l ++ [x])
  = filter (λ y, key y ≤ key x) l ++ [x] ++ filter (λ y, key x < key y) l.
Proof.
  unfold py_sort_by. rewrite foldr_app. simpl.
  induction 1 as [|a l Hl IH Ha]; [done|].
  simpl. rewrite IH. rewrite !filter_cons.
  destruct (decide (key a ≤ key x)), (decide (key x < key a)); try lia.
  - apply insert_by_head. intros y Hy.
    destruct (filter _ l) as [|z k] eqn:Hf.
    + injection Hy as <-. done.
    + injection Hy as <-.
      assert (Hz : z ∈ filter (λ y, key y ≤ key x) l) by (rewrite Hf; left).
      apply list_elem_of_filter in Hz as [_ Hz].
      rewrite Forall_forall in Ha. by apply Ha.
  - rewrite (filter_none (λ y, key y ≤ key x) l), (filter_all (λ y, key x < key y) l).
    + simpl. destruct (Z.leb_spec (key a) (key x)); [lia|]. f_equal.
      apply insert_by_head. intros y Hy. rewrite Forall_forall in Ha.
      apply Ha. destruct l; [done|]. injection Hy as <-. left.
    + eapply Forall_impl; [done|]. intros z Hz. unfold le_by in *. lia.
    + eapply Forall_impl; [done|]. intros z Hz. unfold le_by in *. lia.
Qed.

End sorting.

Section keyframes.

Context `{Uuid}.

(** X14.  [Keyframe_list.add_keyframe] draws one identifier, keeps the
    list's id and property, and leaves the keyframes sorted by time offset
    and holding exactly the old keyframes and the new one; when the list was
    sorted, the old keyframes keep their order and the new one comes after
    those whose offset is not larger than its own. *)
Theorem add_keyframe_keeps_sorted (self : Keyframe_list.t) time_offset value n :
  (Keyframe_list.add_keyframe self time_offset value n).2 = S n
  ∧ Keyframe_list.list_id (Keyframe_list.add_keyframe self time_offset value n).1
    = Keyframe_list.list_id self
  ∧ Keyframe_list.keyframe_property (Keyframe_list.add_keyframe self time_offset value n).1
    = Keyframe_list.keyframe_property self
  ∧ StronglySorted by_time_offset
      (Keyframe_list.keyframes (Keyframe_list.add_keyframe self time_offset value n).1)
  ∧ Keyframe_list.keyframes (Keyframe_list.add_keyframe self time_offset value n).1
    ≡ₚ Keyframe_list.keyframes self ++ [Keyframe.mk (uuid4_hex n) time_offset [value]]
  ∧ (StronglySorted by_time_offset (Keyframe_list.keyframes self) →
     Keyframe_list.keyframes (Keyframe_list.add_keyframe self time_offset value n).1
     = filter (λ kf, Keyframe.time_offset kf ≤ time_offset) (Keyframe_list.keyframes self)
       ++ [Keyframe.mk (uuid4_hex n) time_offset [value]]
       ++ filter (λ kf, time_offset < Keyframe.time_offset kf) (Keyframe_list.keyframes self)).
Proof.
  unfold Keyframe_list.add_keyframe, Keyframe.init. simpl.
  split; [done|]. split; [done|]. split; [done|].
  split; [apply py_sort_by_sorted|]. split; [apply py_sort_by_Permutation|].
  intros Hsorted. by rewrite (py_sort_by_snoc Keyframe.time_offset _ _ Hsorted).
Qed.

End keyframes.

Lemma add_keyframe_keeps_sorted_sample :
  StronglySorted by_time_offset
    [Keyframe.mk "k1" 0 ["1.0"]; Keyframe.mk "k2" 500 ["2.0"]; Keyframe.mk "k3" 900 ["3.0"]]
  ∧ Keyframe_list.keyframes
      (@Keyframe_list.add_keyframe sample_uuid
         (Keyframe_list.mk "l" Keyframe_property.alpha
            [Keyframe.mk "k1" 0 ["1.0"]; Keyframe.mk "k2" 500 ["2.0"];
             Keyframe.mk "k3" 900 ["3.0"]])
         500 "0.5" 0).1
    = [Keyframe.mk "k1" 0 ["1.0"]; Keyframe.mk "k2" 500 ["2.0"];
       Keyframe.mk "a" 500 ["0.5"]; Keyframe.mk "k3" 900 ["3.0"]].
Proof.
  assert (Hsorted : StronglySorted by_time_offset
    [Keyframe.mk "k1" 0 ["1.0"]; Keyframe.mk "k2" 500 ["2.0"];
     Keyframe.mk "k3" 900 ["3.0"]]).
  { repeat match goal with
           | |- StronglySorted _ _ => constructor
           | |- Forall _ _ => constructor
           end; unfold by_time_offset, le_by; simpl; lia. }
  split; [exact Hsorted|].
  rewrite (proj2 (proj2 (proj2 (proj2 (proj2
             (@add_keyframe_keeps_sorted sample_uuid
                (Keyframe_list.mk "l" Keyframe_property.alpha
                   [Keyframe.mk "k1" 0 ["1.0"]; Keyframe.mk "k2" 500 ["2.0"];
                    Keyframe.mk "k3" 900 ["3.0"]]) 500 "0.5" 0))))) Hsorted).
  reflexivity.
Defined.

Section segment_keyframes.

Context `{Uuid}.

Lemma add_to_first_Some p t v lists n lists' n' :
  Video_segment.add_to_first p t v lists n = Some (lists', n') →
  n' = S n
  ∧ Keyframe_list.keyframe_property <$> lists' = Keyframe_list.keyframe_property <$> lists
  ∧ p ∈ (Keyframe_list.keyframe_property <$> lists)
  ∧ (Forall (λ kl, StronglySorted by_time_offset (Keyframe_list.keyframes kl)) lists →
     Forall (λ kl, StronglySorted by_time_offset (Keyframe_list.keyframes kl)) lists')
  ∧ (lists' ≫= Keyframe_list.keyframes)
    ≡ₚ (lists ≫= Keyframe_list.keyframes) ++ [Keyframe.mk (uuid4_hex n) t [v]]
  ∧ ∃ kl, kl ∈ lists' ∧ Keyframe_list.keyframe_property kl = p
          ∧ Keyframe.mk (uuid4_hex n) t [v] ∈ Keyframe_list.keyframes kl.
Proof.
  revert lists' n'. induction lists as [|kl rest IH]; intros lists' n'; [done|].
  cbn [Video_segment.add_to_first]. destruct (decide (Keyframe_list.keyframe_property kl = p)) as [Hp|Hp].
  - destruct (add_keyframe_keeps_sorted kl t v n) as (Hn & _ & Hprop & Hsorted & Hperm & _).
    destruct (Keyframe_list.add_keyframe kl t v n) as [kl' n1] eqn:Hadd.
    simpl in *. intros [= <- <-].
    split; [done|]. split; [by rewrite fmap_cons, Hprop|].
    split; [rewrite <- Hp; left|].
    split; [intros [_ Hrest]%Forall_cons; by constructor|].
    split.
    + rewrite !bind_cons, Hperm, <- !app_assoc. apply Permutation_app_head.
      apply Permutation_app_comm.
    + exists kl'. split; [left|]. split; [congruence|].
      rewrite Hperm. apply elem_of_app. right. left.
  - destruct (Video_segment.add_to_first p t v rest n) as [[rest' n1]|]; [|done].
    intros [= <- <-].
    destruct (IH rest' n1 eq_refl) as (Hn & Hprops & Hin & Hsorted & Hperm & kl' & H1 & H2 & H3).
    split; [done|]. split; [by rewrite !fmap_cons, Hprops|].
    split; [by right|].
    split; [intros [Hkl Hrest]%Forall_cons; constructor; auto|].
    split; [by rewrite !bind_cons, Hperm, app_assoc|].
    exists kl'. split; [by right|done].
Qed.

Lemma add_to_first_None p t v lists n :
  Video_segment.add_to_first p t v lists n = None →
  p ∉ (Keyframe_list.keyframe_property <$> lists).
Proof.
  induction lists as [|kl rest IH]; [intros _; apply not_elem_of_nil|].
  cbn [Video_segment.add_to_first]. destruct (decide (Keyframe_list.keyframe_property kl = p)) as [Hp|Hp].
  - by destruct (Keyframe_list.add_keyframe kl t v n).
  - destruct (Video_segment.add_to_first p t v rest n) as [[rest' n1]|]; [done|].
    intros _. apply not_elem_of_cons. split; [done|by apply IH].
Qed.

(** What [store_keyframe] does to a segment whose keyframe lists are well
    formed, for a property other than [uniform_scale]. *)
Lemma store_keyframe_wf self p t v n :
  p ≠ Keyframe_property.uniform_scale →
  keyframes_wf self →
  keyframes_wf (Video_segment.store_keyframe self p t v n).1
  ∧ Video_segment.uniform_scale (Video_segment.store_keyframe self p t v n).1
    = Video_segment.uniform_scale self
  ∧ ∃ id kl,
      all_keyframes (Video_segment.store_keyframe self p t v n).1
      ≡ₚ all_keyframes self ++ [Keyframe.mk id t [v]]
      ∧ kl ∈ Video_segment.common_keyframes (Video_segment.store_keyframe self p t v n).1
      ∧ Keyframe_list.keyframe_property kl = p
      ∧ Keyframe.mk id t [v] ∈ Keyframe_list.keyframes kl.
Proof.
  intros Hp (Hnodup & Hnot & Hsorted). unfold Video_segment.store_keyframe.
  destruct (Video_segment.add_to_first p t v (Video_segment.common_keyframes self) n)
    as [[lists n1]|] eqn:Hfirst.
  - apply add_to_first_Some in Hfirst as (_ & Hprops & _ & Hs & Hperm & kl & H1 & H2 & H3).
    unfold keyframes_wf, all_keyframes. simpl. rewrite Hprops.
    split; [by auto|]. split; [done|]. by exists (uuid4_hex n), kl.
  - apply add_to_first_None in Hfirst.
    unfold keyframes_wf, all_keyframes. simpl.
    split; [|split; [done|]].
    + rewrite fmap_app. simpl. split; [|split].
      * apply NoDup_app. split; [done|]. split; [|apply NoDup_singleton].
        intros q Hq ->%list_elem_of_singleton. done.
      * intros [Hin|Hin%list_elem_of_singleton]%elem_of_app; [done|]. by apply Hp.
      * apply Forall_app. split; [done|]. constructor; [|done]. simpl.
        repeat constructor.
    + exists (uuid4_hex (S n)), (Keyframe_list.mk (uuid4_hex n) p
                [Keyframe.mk (uuid4_hex (S n)) t [v]]).
      split; [by rewrite bind_app; simpl|].
      split; [apply elem_of_app; right; left|]. split; [done|left].
Qed.

(** X15.  [Video_segment.add_keyframe] keeps the keyframe lists of a
    segment well formed (pairwise different properties, none of them
    [uniform_scale], each list sorted by time offset), whether it returns or
    raises; when it returns, the segment holds exactly one more keyframe,
    with the given offset and value, in the list of the requested property,
    or of [scale_x] when [uniform_scale] was requested. *)
Theorem add_keyframe_keeps_wf (self : Video_segment.t) p t v n :
  keyframes_wf self →
  keyframes_wf (Video_segment.add_keyframe self p t v n).1.2
  ∧ ((Video_segment.add_keyframe self p t v n).1.1 = Returns tt →
     ∃ id kl,
       all_keyframes (Video_segment.add_keyframe self p t v n).1.2
       ≡ₚ all_keyframes self ++ [Keyframe.mk id t [v]]
       ∧ kl ∈ Video_segment.common_keyframes (Video_segment.add_keyframe self p t v n).1.2
       ∧ Keyframe_list.keyframe_property kl
         = (if decide (p = Keyframe_property.uniform_scale)
            then Keyframe_property.scale_x else p)
       ∧ Keyframe.mk id t [v] ∈ Keyframe_list.keyframes kl).
Proof.
  intros Hwf. unfold Video_segment.add_keyframe, Video_segment.check_scale.
  destruct p, (Video_segment.uniform_scale self) eqn:Hflag; simpl;
    try (split; [done|done]);
    match goal with
    | |- context [Video_segment.store_keyframe ?s ?q t v n] =>
        destruct (store_keyframe_wf s q t v n ltac:(done) Hwf) as (Hwf' & _ & Hnew);
        destruct (Video_segment.store_keyframe s q t v n) as [self' n'];
        by split
    end.
Qed.

(** X16.  The [uniform_scale] flag of a segment only ever goes from true to
    false, and does so when a keyframe on [scale_x] or [scale_y] is added;
    while the flag is false a [uniform_scale] keyframe is refused with
    [ValueError], the segment and the identifiers drawn being unchanged;
    every other request returns, also a [scale_x] or [scale_y] keyframe
    after [uniform_scale] keyframes were stored. *)
Theorem add_keyframe_uniform_scale_guard (self : Video_segment.t) p t v n :
  (p ≠ Keyframe_property.uniform_scale ∨ Video_segment.uniform_scale self = true →
     (Video_segment.add_keyframe self p t v n).1.1 = Returns tt)
  ∧ (p = Keyframe_property.uniform_scale → Video_segment.uniform_scale self = false →
     Video_segment.add_keyframe self p t v n
     = (Raises (Builtin (ValueError
          "Cannot set uniform_scale when scale_x or scale_y already exist")), self, n))
  ∧ Video_segment.uniform_scale (Video_segment.add_keyframe self p t v n).1.2
    = Video_segment.uniform_scale self
      && negb (bool_decide (p = Keyframe_property.scale_x ∨ p = Keyframe_property.scale_y)).
Proof.
  unfold Video_segment.add_keyframe, Video_segment.check_scale.
  assert (Hflag : ∀ s q,
    Video_segment.uniform_scale (Video_segment.store_keyframe s q t v n).1
    = Video_segment.uniform_scale s).
  { intros s q. unfold Video_segment.store_keyframe.
    by destruct (Video_segment.add_to_first q t v _ n) as [[lists n1]|]. }
  destruct p, (Video_segment.uniform_scale self) eqn:Hu; simpl;
    try match goal with
    | |- context [Video_segment.store_keyframe ?s ?q t v n] =>
        pose proof (Hflag s q) as Hs;
        destruct (Video_segment.store_keyframe s q t v n) as [self' n']; simpl in *
    end;
    (split; [|split]); try done; try (by intros [?|?]); try (by rewrite Hs, ?Hu).
Qed.

End segment_keyframes.

Lemma sample_segment_keyframes_wf : keyframes_wf sample_segment.
Proof.
  unfold keyframes_wf. change (Video_segment.common_keyframes sample_segment) with
    (@nil Keyframe_list.t).
  split; [constructor|]. split; [apply not_elem_of_nil|constructor].
Defined.

Lemma add_keyframe_keeps_wf_sample :
  keyframes_wf sample_segment
  ∧ keyframes_wf
      (@Video_segment.add_keyframe sample_uuid sample_segment
         Keyframe_property.uniform_scale 100 "2.0" 1).1.2
  ∧ ∃ id kl,
      all_keyframes
        (@Video_segment.add_keyframe sample_uuid sample_segment
           Keyframe_property.uniform_scale 100 "2.0" 1).1.2
      ≡ₚ all_keyframes sample_segment ++ [Keyframe.mk id 100 ["2.0"]]
      ∧ kl ∈ Video_segment.common_keyframes
               (@Video_segment.add_keyframe sample_uuid sample_segment
                  Keyframe_property.uniform_scale 100 "2.0" 1).1.2
      ∧ Keyframe_list.keyframe_property kl = Keyframe_property.scale_x
      ∧ Keyframe.mk id 100 ["2.0"] ∈ Keyframe_list.keyframes kl.
Proof.
  split; [exact sample_segment_keyframes_wf|].
  destruct (@add_keyframe_keeps_wf sample_uuid sample_segment
              Keyframe_property.uniform_scale 100 "2.0" 1 sample_segment_keyframes_wf)
    as [Hwf Hnew].
  split; [exact Hwf|]. exact (Hnew eq_refl).
Defined.

Lemma add_keyframe_uniform_scale_guard_sample :
  Video_segment.uniform_scale scaled_segment = false
  ∧ @Video_segment.add_keyframe sample_uuid scaled_segment
      Keyframe_property.uniform_scale 100 "2.0" 3
    = (Raises (Builtin (ValueError
         "Cannot set uniform_scale when scale_x or scale_y already exist")),
       scaled_segment, 3%nat).
Proof.
  split; [reflexivity|].
  exact (proj1 (proj2 (@add_keyframe_uniform_scale_guard sample_uuid scaled_segment
                         Keyframe_property.uniform_scale 100 "2.0" 3)) eq_refl eq_refl).
Defined.

(** * Animations *)

(** X17.  [Segment_animations.add_animation] appends the animation exactly
    when no animation of its type is in the list yet, and otherwise raises
    [ValueError] naming the type; so the types in the list stay pairwise
    different, and the id and type of the series are kept. *)
Theorem add_animation_refuses_duplicate (self : Segment_animations.t) (a : Animation.t) :
  (Animation.animation_type a ∉ (Animation.animation_type <$> Segment_animations.animations self) →
     Segment_animations.add_animation self a
     = Returns (Segment_animations.mk (Segment_animations.animation_id self)
                  (Segment_animations.animation_type self)
                  (Segment_animations.animations self ++ [a])))
  ∧ (Animation.animation_type a ∈ (Animation.animation_type <$> Segment_animations.animations self) →
     Segment_animations.add_animation self a
     = Raises (Builtin (ValueError (Animation.animation_type a))))
  ∧ (NoDup (Animation.animation_type <$> Segment_animations.animations self) →
     ∀ self', Segment_animations.add_animation self a = Returns self' →
       NoDup (Animation.animation_type <$> Segment_animations.animations self')).
Proof.
  unfold Segment_animations.add_animation.
  split; [|split].
  - intros Hnew. by rewrite bool_decide_eq_false_2.
  - intros Hold. by rewrite bool_decide_eq_true_2.
  - intros Hnodup self'. case_bool_decide as Hin; [done|]. intros [= <-]. simpl.
    rewrite fmap_app. apply NoDup_app. split; [done|]. split; [|apply NoDup_singleton].
    intros ty Hty ->%list_elem_of_singleton. done.
Qed.

Lemma add_animation_refuses_duplicate_sample :
  ("in"%string ∈ (Animation.animation_type
                   <$> [Animation.mk "fade-in" "e1" "in" "r1" 0 500000 "in" "x" true]))
  ∧ Segment_animations.add_animation
      (Segment_animations.mk "s1" "sticker_animation"
         [Animation.mk "fade-in" "e1" "in" "r1" 0 500000 "in" "x" true])
      (Animation.mk "zoom-in" "e3" "in" "r3" 0 300000 "in" "x" true)
    = Raises (Builtin (ValueError "in")).
Proof.
  split; [left|].
  apply (proj1 (proj2 (add_animation_refuses_duplicate
           (Segment_animations.mk "s1" "sticker_animation"
              [Animation.mk "fade-in" "e1" "in" "r1" 0 500000 "in" "x" true])
           (Animation.mk "zoom-in" "e3" "in" "r3" 0 300000 "in" "x" true)))).
  left.
Defined.

Lemma in_out_at_most_two (l : list string) :
  NoDup l → Forall (λ x, x = "in"%string ∨ x = "out"%string) l → (length l ≤ 2)%nat.
Proof.
  intros Hnodup Hall.
  destruct l as [|a [|b [|c l]]]; simpl; [lia..|exfalso].
  apply Forall_cons in Hall as [Ha Hall]. apply Forall_cons in Hall as [Hb Hall].
  apply Forall_cons in Hall as [Hc _].
  apply NoDup_cons in Hnodup as [Ha' Hnodup]. apply NoDup_cons in Hnodup as [Hb' _].
  destruct Ha as [->| ->], Hb as [->| ->], Hc as [->| ->];
    first [by destruct Ha'; left | by destruct Ha'; right; left | by destruct Hb'; left].
Qed.

Section segment_animations.

Context `{Uuid}.

(** X18.  [Video_segment.add_animation] with a member of the intro or outro
    enumeration keeps the animations of a segment well formed (linked in
    [extra_material_refs], at most one of type "in" and one of type "out",
    hence at most two) and leaves every other field alone.  When it returns,
    one animation has been appended: an intro starts at 0, an outro ends
    exactly at the end of the segment ([start + duration] is the target
    duration), both with the duration of the metadata.  It raises only
    [ValueError], when an animation of that kind is already there, and then
    the segment and the identifiers drawn are unchanged. *)
Theorem add_animation_keeps_wf (self : Video_segment.t) (ty : Video_animation_type) n :
  animations_wf self →
  animations_wf (Video_segment.add_animation self (Member ty) n).1.2
  ∧ (length (from_option Segment_animations.animations []
               (Video_segment.animations_instance
                  (Video_segment.add_animation self (Member ty) n).1.2)) ≤ 2)%nat
  ∧ Video_segment.set_animations_instance (Video_segment.animations_instance self)
      (Video_segment.set_extra_material_refs (Video_segment.extra_material_refs self)
         (Video_segment.add_animation self (Member ty) n).1.2)
    = self
  ∧ ((Video_segment.add_animation self (Member ty) n).1.1 = Returns tt →
     ∃ inst a,
       Video_segment.animations_instance (Video_segment.add_animation self (Member ty) n).1.2
       = Some inst
       ∧ Segment_animations.animations inst
         = from_option Segment_animations.animations []
             (Video_segment.animations_instance self) ++ [a]
       ∧ match ty with
         | Video_intro_type meta =>
             Animation.animation_type a = "in"%string
             ∧ Animation.start a = 0
             ∧ Animation.duration a = meta_duration meta
         | Video_outro_type meta =>
             Animation.animation_type a = "out"%string
             ∧ Animation.start a + Animation.duration a
               = Timerange.duration (Video_segment.target_timerange self)
             ∧ Animation.duration a = meta_duration meta
         end)
  ∧ (∀ e, (Video_segment.add_animation self (Member ty) n).1.1 = Raises e →
     ∃ kind inst,
       e = Builtin (ValueError kind)
       ∧ kind = match ty with Video_intro_type _ => "in"%string | _ => "out"%string end
       ∧ Video_segment.animations_instance self = Some inst
       ∧ kind ∈ (Animation.animation_type <$> Segment_animations.animations inst)
       ∧ Video_segment.add_animation self (Member ty) n = (Raises e, self, n)).
Proof.
  intros Hwf. unfold animations_wf in Hwf.
  assert (Hlen : ∀ s, animations_wf s →
    (length (from_option Segment_animations.animations []
               (Video_segment.animations_instance s)) ≤ 2)%nat).
  { intros s Hs. unfold animations_wf in Hs.
    destruct (Video_segment.animations_instance s) as [inst|]; simpl; [|lia].
    destruct Hs as (_ & Hnodup & Hkinds).
    rewrite <- (length_fmap Animation.animation_type).
    apply in_out_at_most_two; [done|]. by apply Forall_fmap. }
  cut (animations_wf (Video_segment.add_animation self (Member ty) n).1.2
       ∧ Video_segment.set_animations_instance (Video_segment.animations_instance self)
           (Video_segment.set_extra_material_refs (Video_segment.extra_material_refs self)
              (Video_segment.add_animation self (Member ty) n).1.2)
         = self
       ∧ ((Video_segment.add_animation self (Member ty) n).1.1 = Returns tt →
          ∃ inst a,
            Video_segment.animations_instance
              (Video_segment.add_animation self (Member ty) n).1.2 = Some inst
            ∧ Segment_animations.animations inst
              = from_option Segment_animations.animations []
                  (Video_segment.animations_instance self) ++ [a]
            ∧ match ty with
              | Video_intro_type meta =>
                  Animation.animation_type a = "in"%string
                  ∧ Animation.start a = 0
                  ∧ Animation.duration a = meta_duration meta
              | Video_outro_type meta =>
                  Animation.animation_type a = "out"%string
                  ∧ Animation.start a + Animation.duration a
                    = Timerange.duration (Video_segment.target_timerange self)
                  ∧ Animation.duration a = meta_duration meta
              end)
       ∧ (∀ e, (Video_segment.add_animation self (Member ty) n).1.1 = Raises e →
          ∃ kind inst,
            e = Builtin (ValueError kind)
            ∧ kind = match ty with Video_intro_type _ => "in"%string | _ => "out"%string end
            ∧ Video_segment.animations_instance self = Some inst
            ∧ kind ∈ (Animation.animation_type <$> Segment_animations.animations inst)
            ∧ Video_segment.add_animation self (Member ty) n = (Raises e, self, n))).
  { intros (H1 & H2 & H3 & H4). split; [done|]. split; [by apply Hlen|]. done. }
  destruct self as [sid mid src tgt kfs refs clip us [inst|]];
    unfold Video_segment.add_animation;
    cbn [Video_segment.animations_instance Video_segment.extra_material_refs
         Video_segment.target_timerange] in *.
  - destruct Hwf as (Hlinked & Hnodup & Hkinds).
    destruct ty as [meta|meta]; cbn [Animation.init];
      unfold Segment_animations.add_animation; cbn [Animation.animation_type];
      case_bool_decide as Hin; cbn.
    + split; [done|]. split; [done|]. split; [done|].
      intros e [= <-]. by eexists _, _.
    + split.
      { split; [done|]. rewrite fmap_app. split.
        - apply NoDup_app. split; [done|]. split; [|apply NoDup_singleton].
          intros k Hk ->%list_elem_of_singleton. done.
        - apply Forall_app. split; [done|]. constructor; [by left|constructor]. }
      split; [done|]. split; [|done].
      intros _. eexists _, _. split; [done|]. split; [done|]. done.
    + split; [done|]. split; [done|]. split; [done|].
      intros e [= <-]. by eexists _, _.
    + split.
      { split; [done|]. rewrite fmap_app. split.
        - apply NoDup_app. split; [done|]. split; [|apply NoDup_singleton].
          intros k Hk ->%list_elem_of_singleton. done.
        - apply Forall_app. split; [done|]. constructor; [by right|constructor]. }
      split; [done|]. split; [|done].
      intros _. eexists _, _. split; [done|]. split; [done|].
      split; [done|]. split; [simpl; lia|done].
  - destruct ty as [meta|meta]; cbn.
    + split.
      { split; [apply elem_of_app; right; left|].
        split; [apply NoDup_singleton|]. constructor; [by left|constructor]. }
      split; [done|]. split; [|done].
      intros _. eexists _, _. split; [done|]. split; [done|]. done.
    + split.
      { split; [apply elem_of_app; right; left|].
        split; [apply NoDup_singleton|]. constructor; [by right|constructor]. }
      split; [done|]. split; [|done].
      intros _. eexists _, _. split; [done|]. split; [done|].
      split; [done|]. split; [simpl; lia|done].
Qed.

End segment_animations.

Lemma add_animation_keeps_wf_sample :
  animations_wf sample_segment
  ∧ ∃ inst a,
      Video_segment.animations_instance
        (@Video_segment.add_animation sample_uuid sample_segment (Member sample_outro) 1).1.2
      = Some inst
      ∧ Segment_animations.animations inst
        = from_option Segment_animations.animations []
            (Video_segment.animations_instance sample_segment) ++ [a]
      ∧ Animation.animation_type a = "out"%string
      ∧ Animation.start a + Animation.duration a
        = Timerange.duration (Video_segment.target_timerange sample_segment)
      ∧ Animation.duration a = 700000.
Proof.
  assert (Hwf : animations_wf sample_segment) by exact I.
  split; [exact Hwf|].
  exact (proj1 (proj2 (proj2 (proj2
           (@add_animation_keeps_wf sample_uuid sample_segment sample_outro 1 Hwf))))
           eq_refl).
Defined.

(** * From [Video_segment.export_json] to template mode *)

Ltac lookup_exported :=
  repeat (rewrite lookup_insert_ne by discriminate); apply lookup_insert_eq.

Lemma exported_fields (seg : Video_segment.t) :
  ∃ m, Video_segment.export_json seg = JObj m
       ∧ m !! "material_id"%string = Some (JStr (Video_segment.material_id seg))
       ∧ m !! "source_timerange"%string
         = Some (Timerange.export_json (Video_segment.source_timerange seg))
       ∧ m !! "target_timerange"%string
         = Some (Timerange.export_json (Video_segment.target_timerange seg))
       ∧ m !! "render_index"%string = Some (JInt 0).
Proof.
  eexists. split; [reflexivity|].
  split; [lookup_exported|]. split; [lookup_exported|].
  split; lookup_exported.
Qed.

(** X19.  What [Video_segment.export_json] writes, template mode reads
    back: [Imported_segment] built from the exported dict has the segment's
    material id and source and target timeranges, the dict has the
    descriptor shape, so exporting the imported segment again gives the same
    dict; its [render_index] is 0. *)
Theorem exported_segment_loads (seg : Video_segment.t) :
  Imported_segment.init (Video_segment.export_json seg)
  = Ok (Imported_segment.mk (Video_segment.export_json seg)
          (Video_segment.material_id seg) (Video_segment.source_timerange seg)
          (Video_segment.target_timerange seg))
  ∧ segment_shaped (Video_segment.export_json seg)
  ∧ Imported_segment.export_json
      (Imported_segment.mk (Video_segment.export_json seg)
         (Video_segment.material_id seg) (Video_segment.source_timerange seg)
         (Video_segment.target_timerange seg))
    = Ok (Video_segment.export_json seg)
  ∧ subscript (Video_segment.export_json seg) "render_index" = Ok (JInt 0).
Proof.
  destruct (exported_fields seg) as (m & -> & Hmid & Hsrc & Htgt & Hri).
  assert (Hinit : Imported_segment.init (JObj m)
    = Ok (Imported_segment.mk (JObj m) (Video_segment.material_id seg)
            (Video_segment.source_timerange seg) (Video_segment.target_timerange seg))).
  { unfold Imported_segment.init, assign_attr_with_json, subscript.
    rewrite Hmid, Hsrc, Htgt. cbn [mbind outcome_bind].
    by rewrite !timerange_import_export. }
  assert (Hshape : segment_shaped (JObj m)).
  { intros v [Hv|Hv]; unfold subscript in Hv.
    - rewrite Hsrc in Hv. injection Hv as <-. by eexists.
    - rewrite Htgt in Hv. injection Hv as <-. by eexists. }
  split; [done|]. split; [done|].
  split; [by apply segment_roundtrip|].
  unfold subscript. by rewrite Hri.
Qed.
